(** * dash-validator: the validator facade of index.js

    A shallow embedding of [index.js] (the [DashValidator] object) and
    the properties of its segment verification pipeline, its timestamp
    and header policies and its event subscription.

    The collaborators required by [index.js] but kept in other modules
    ([lib/util.js], [lib/dash_validator_runner.js]) enter as the
    operations of the class [Lib]; the JavaScript runtime enters through
    a small value model (module [Js]). *)

From Stdlib Require Import ZArith Ascii String List Lia.
From stdpp Require Import base option list strings gmap.

Local Open Scope Z_scope.

(** ** JavaScript values and completions *)

Module Js.

(** The values that travel as rejection reasons and exceptions. *)
Inductive value : Type :=
| VUndefined
| VString (s : string)
| VError (name message : string).

(** The outcome of evaluating an expression or of settling a promise:
    a normal value (a resolved promise) or a thrown one (a rejected
    promise). *)
Inductive completion (A : Type) : Type :=
| Normal (a : A)
| Throw (e : value).

Arguments Normal {A} a.
Arguments Throw {A} e.

Definition bind {A B} (c : completion A) (k : A -> completion B) : completion B :=
  match c with
  | Normal a => k a
  | Throw e => Throw e
  end.

(** [a || b] on boolean operands, with [b] evaluated only when [a] is
    false. *)
Definition orelse (a : completion bool) (b : completion bool) : completion bool :=
  bind a (fun x => if x then Normal true else b).

(** The error of a property access on [undefined]. *)
Definition cannot_read (prop : string) : value :=
  VError "TypeError" ("Cannot read properties of undefined (reading '" +:+ prop +:+ "')").

(** [String.prototype.split(",")]: the maximal comma-free pieces, in
    order; the empty string gives one empty piece. *)
Fixpoint split_comma (s : string) : list string :=
  match s with
  | EmptyString => [EmptyString]
  | String c rest =>
      if Ascii.eqb c ","%char then EmptyString :: split_comma rest
      else match split_comma rest with
           | tok :: toks => String c tok :: toks
           | [] => [String c EmptyString]
           end
  end.

(** [Array.prototype.indexOf] on an array of strings (strict equality),
    counting from [from]; [-1] when the element is not there. *)
Fixpoint indexOf_from (from : Z) (l : list string) (x : string) : Z :=
  match l with
  | [] => -1
  | y :: l' => if String.eqb y x then from else indexOf_from (from + 1) l' x
  end.

Definition indexOf (l : list string) (x : string) : Z := indexOf_from 0 l x.

(** The numeric value of a string of decimal digits (what [m[1] > 10]
    compares after converting the captured text to a number). The
    conversion to a double rounds monotonically and [10] is a double,
    so the comparison with [10] is the one of the exact values. *)
Definition digit_value (c : ascii) : Z := Z.of_nat (nat_of_ascii c) - 48.

Definition is_digit (c : ascii) : bool :=
  (48 <=? Z.of_nat (nat_of_ascii c)) && (Z.of_nat (nat_of_ascii c) <=? 57).

Fixpoint to_number_from (acc : Z) (s : string) : Z :=
  match s with
  | EmptyString => acc
  | String c rest => to_number_from (10 * acc + digit_value c) rest
  end.

Definition to_number (s : string) : Z := to_number_from 0 s.

(** The regular expression [/max-age=(\d+)/]. *)

(** [strip_prefix p s]: the rest of [s] after the literal [p]. *)
Fixpoint strip_prefix (p s : string) : option string :=
  match p, s with
  | EmptyString, _ => Some s
  | String a p', String b s' => if Ascii.eqb a b then strip_prefix p' s' else None
  | String _ _, EmptyString => None
  end.

(** [\d+] is greedy: the longest run of digits at the head of [s]. *)
Fixpoint take_digits (s : string) : string :=
  match s with
  | String c rest => if is_digit c then String c (take_digits rest) else EmptyString
  | EmptyString => EmptyString
  end.

(** The match anchored at the first character: the captured group. *)
Definition match_here (s : string) : option string :=
  match strip_prefix "max-age=" s with
  | Some rest =>
      match take_digits rest with
      | EmptyString => None
      | ds => Some ds
      end
  | None => None
  end.

(** [s.match(/max-age=(\d+)/)]: the leftmost match; the result is the
    group [m[1]], or [None] for [null]. *)
Fixpoint match_max_age (s : string) : option string :=
  match match_here s with
  | Some ds => Some ds
  | None =>
      match s with
      | String _ rest => match_max_age rest
      | EmptyString => None
      end
  end.

End Js.

Import Js.

(** ** Data *)

(** HTTP response headers: an object keyed by the lower-cased name. *)
Abbreviation Headers := (gmap string string).

(** The manifest the parser produces, with the fields [index.js] reads. *)
Record Manifest : Type := {
  type : string;
  timeAtHead : Z;
  segments : list string
}.

(** ** The default policies *)

(** [headers[k].split(',')]: the call throws when [headers[k]] is
    [undefined]. *)
Definition split_header (headers : Headers) (k : string) : completion (list string) :=
  match headers !! k with
  | Some v => Normal (split_comma v)
  | None => Throw (cannot_read "split")
  end.

(** [defaultVerifyFn]: [headersOk] is [false] when the condition
    [typeof headers["cache-control"] === "undefined" || ... == -1 || ... == -1]
    holds; the operands are evaluated from the left, each only when the
    ones before it are false. *)
Definition defaultVerifyFn (headers : Headers) : completion bool :=
  bind
    (orelse
       (orelse
          (Normal (bool_decide (headers !! "cache-control" = None)))
          (bind (split_header headers "access-control-expose-headers")
             (fun l => Normal (indexOf l "Date" =? -1))))
       (bind (split_header headers "access-control-allow-headers")
          (fun l => Normal (indexOf l "origin" =? -1))))
    (fun violated => Normal (if violated then false else true)).

(** [defaultManifestVerifyFn]: [!headers["cache-control"]] holds for an
    absent header and for the empty string. *)
Definition defaultManifestVerifyFn (headers : Headers) (type : string) : bool :=
  if String.eqb type "dynamic" then
    match headers !! "cache-control" with
    | None => false
    | Some EmptyString => false
    | Some cc =>
        match match_max_age cc with
        | None => false
        | Some m1 => if to_number m1 >? 10 then false else true
        end
    end
  else true.

(** ** The collaborators

    [lib/util.js], [lib/dash_validator_runner.js] and the clock of the
    runtime. A [World] is everything outside the validator object that a
    call can read or change: the network, the clock. A request returns
    how its promise settles, and the world it leaves behind. *)
Class Lib : Type := {
  World : Type;
  (** [new Date().getTime()] *)
  getTime : World -> Z;
  (** [util.requestHeaders(url)], a HEAD request *)
  requestHeaders : string -> World -> completion Headers * World;
  (** [util.requestCacheFill(url)], a GET request *)
  requestCacheFill : string -> World -> completion Headers * World;
  (** [util.sleep(ms)] *)
  sleep : Z -> World -> World;
  (** the runner object and its listeners *)
  Runner : Type;
  Callback : Type;
  (** [runner.on(eventName, fn)] *)
  Runner_on : string -> Callback -> Runner -> completion Runner
}.

(** Modelled from the spec: [util.getRandomItem] of [lib/util.js], which
    is not part of the sources at hand. The spec has it draw one item of
    the list uniformly at random and leave the list as it is. A finite
    distribution is the list of its equally likely outcomes, so the draw
    from [items] is [items] itself, one outcome per position; [x ← d; k x]
    runs [k] on every outcome of [d]. The draw from an empty list is not
    described by the spec: it has no outcome here. *)
Definition getRandomItem (items : list string) : list string := items.

(** Modelled from the spec: [util.iteratorFromArray] of [lib/util.js],
    which is not part of the sources at hand. The spec has the walk take
    the segments in the iteration order of the input, each once: the
    iterator is what is left of the array, and [next()] takes its head
    ([done] when nothing is left). *)
Definition iteratorFromArray (segments : list string) : list string := segments.

Section Validator.

Context {L : Lib}.

(** The validator object once [load()] has resolved. *)
Record DashValidator : Type := {
  _src : string;
  _manifest : Manifest;
  _base : string;
  _manifestHeaders : Headers;
  _runner : Runner
}.

Definition with_runner (this : DashValidator) (r : Runner) : DashValidator :=
  {| _src := _src this; _manifest := _manifest this; _base := _base this;
     _manifestHeaders := _manifestHeaders this; _runner := r |}.

(** *** verifyTimestamps *)

Record TimestampResult : Type := {
  clock : string;
  clockOffset : option Z
}.

(** [allowedDiff || 10000]: an omitted argument ([None]) and the falsy
    number [0] both give the default. *)
Definition or_default (allowedDiff : option Z) (dflt : Z) : Z :=
  match allowedDiff with
  | Some v => if v =? 0 then dflt else v
  | None => dflt
  end.

Definition verifyTimestamps (this : DashValidator) (allowedDiff : option Z)
    (w : World) : TimestampResult :=
  let diffCriteria := or_default allowedDiff 10000 in
  if String.eqb (type (_manifest this)) "static" then
    {| clock := "OK"; clockOffset := None |}
  else
    let timeAtHead := timeAtHead (_manifest this) in
    let d := getTime w in
    if Z.abs (timeAtHead - d) >? diffCriteria then
      {| clock := "BAD"; clockOffset := Some (Z.abs (timeAtHead - d)) |}
    else
      {| clock := "OK"; clockOffset := Some (Z.abs (timeAtHead - d)) |}.

(** *** verifyManifest *)

Record ManifestVerifyResult : Type := {
  manifest_ok : bool;
  manifest_headers : Headers
}.

Definition verifyManifest (this : DashValidator)
    (verifyFn : option (Headers -> string -> bool)) : ManifestVerifyResult :=
  let verify := default defaultManifestVerifyFn verifyFn in
  {| manifest_ok := verify (_manifestHeaders this) (type (_manifest this));
     manifest_headers := _manifestHeaders this |}.

(** *** verifySegment *)

(** The object [verifySegment] resolves with: [ok] as a truth value,
    [reason] and [headers] left [undefined] unless assigned. *)
Record SegmentResult : Type := {
  res_ok : bool;
  res_reason : value;
  res_headers : option Headers
}.

(** [reqFn]: [util.requestHeaders] unless [doDownload] is truthy. *)
Definition select_reqFn (doDownload : bool) : string -> World -> completion Headers * World :=
  if negb doDownload then requestHeaders else requestCacheFill.

(** [verifySegment]: the promise always resolves. A predicate over
    headers returns a truth value or throws; a throw inside the [then]
    callback rejects the chained promise before [result.headers] is
    assigned, and the [catch] callback handles it like a rejected
    request. *)
Definition verifySegment (verifyFn : Headers -> completion bool)
    (segmentUrl : string) (doDownload : bool) (w : World) : SegmentResult * World :=
  let reqFn := select_reqFn doDownload in
  match reqFn segmentUrl w with
  | (Normal headers, w') =>
      match verifyFn headers with
      | Normal b => ({| res_ok := b; res_reason := VUndefined; res_headers := Some headers |}, w')
      | Throw err => ({| res_ok := false; res_reason := err; res_headers := None |}, w')
      end
  | (Throw err, w') => ({| res_ok := false; res_reason := err; res_headers := None |}, w')
  end.

(** *** verifySegments *)

Record FailedInfo : Type := {
  uri : string;
  reason : value;
  headers : option Headers
}.

Record SuccessInfo : Type := { ok_uri : string }.

Record SegmentVerifyResult : Type := {
  failed : list FailedInfo;
  ok : list SuccessInfo
}.

(** What an observer of the network sees of a walk: each request when
    it is issued and when its promise settles, with the clock reading. *)
Inductive event : Type :=
| ProbeStart (url : string) (at_ms : Z)
| ProbeEnd (url : string) (at_ms : Z).

(** The variables the closure [checkSegment] works on, the world and
    the events so far. *)
Record Walk : Type := {
  walk_failed : list FailedInfo;
  walk_ok : list SuccessInfo;
  walk_world : World;
  walk_trace : list event
}.

(** [checkSegment(doneCb)], by recursion on what the iterator [it] has
    left: [it.next()] is the match on [it]. *)
Fixpoint checkSegment (verifyFn : option (Headers -> completion bool))
    (base : string) (doDownload : bool) (it : list string) (st : Walk) : Walk :=
  match it with
  | [] => st
  | segmentUrl :: it' =>
      let url := base +:+ segmentUrl in
      let w := walk_world st in
      let '(result, w') :=
        verifySegment (default defaultVerifyFn verifyFn) url doDownload w in
      let tr := walk_trace st ++ [ProbeStart url (getTime w); ProbeEnd url (getTime w')] in
      let st' :=
        if res_ok result then
          {| walk_failed := walk_failed st;
             walk_ok := walk_ok st ++ [{| ok_uri := segmentUrl |}];
             walk_world := sleep 50 w';
             walk_trace := tr |}
        else
          {| walk_failed := walk_failed st ++
               [{| uri := segmentUrl; reason := res_reason result;
                   headers := res_headers result |}];
             walk_ok := walk_ok st;
             walk_world := sleep 50 w';
             walk_trace := tr |} in
      checkSegment verifyFn base doDownload it' st'
  end.

Definition start_walk (w : World) : Walk :=
  {| walk_failed := []; walk_ok := []; walk_world := w; walk_trace := [] |}.

Definition report (st : Walk) : SegmentVerifyResult :=
  {| failed := walk_failed st; ok := walk_ok st |}.

(** [verifySegments]: the report the promise resolves with, the world
    afterwards and the requests made. *)
Definition verifySegments (this : DashValidator)
    (verifyFn : option (Headers -> completion bool)) (segments : list string)
    (doDownload : bool) (w : World) : SegmentVerifyResult * World * list event :=
  let it := iteratorFromArray segments in
  let base := _base this in
  let st := checkSegment verifyFn base doDownload it (start_walk w) in
  (report st, walk_world st, walk_trace st).

Definition verifyAllSegments (this : DashValidator)
    (verifyFn : option (Headers -> completion bool)) (doDownload : bool) (w : World) :=
  verifySegments this verifyFn (segments (_manifest this)) doDownload w.

(** *** spotcheckSegments *)

(** The loop [while (i < noSamples) { spotchecks.push(...); i++ }] with
    [i] from [0]: [count] rounds are left. *)
Fixpoint spotcheck_loop (count : nat) (segments spotchecks : list string)
    : list (list string) :=
  match count with
  | O => mret spotchecks
  | S count' =>
      x ← getRandomItem segments;
      spotcheck_loop count' segments (spotchecks ++ [x])
  end.

Definition spotcheckSegments (this : DashValidator)
    (verifyFn : option (Headers -> completion bool)) (noSamples : Z)
    (doDownload : bool) (w : World)
    : list (SegmentVerifyResult * World * list event) :=
  spotchecks ← spotcheck_loop (Z.to_nat noSamples) (segments (_manifest this)) [];
  mret (verifySegments this verifyFn spotchecks doDownload w).

(** *** on *)

Definition on (this : DashValidator) (eventName : string) (fn : Callback)
    : completion DashValidator :=
  if negb (indexOf ["invalidplayhead"; "invalidheaders"; "checking"] eventName =? -1) then
    bind (Runner_on eventName fn (_runner this))
         (fun r => Normal (with_runner this r))
  else Normal this.

End Validator.

(** ** What the header policies are stated with *)

Fixpoint all_digits (s : string) : bool :=
  match s with
  | EmptyString => true
  | String c rest => is_digit c && all_digits rest
  end.

(** [s] does not go on with a digit. *)
Definition no_leading_digit (s : string) : bool :=
  match s with
  | EmptyString => true
  | String c _ => negb (is_digit c)
  end.

(** [cc] reads [pre], then [max-age=], then the digits [ds] and no
    further digit: a [max-age=<n>] directive at offset [length pre]. *)
Definition max_age_at (cc pre ds post : string) : Prop :=
  cc = pre +:+ "max-age=" +:+ ds +:+ post /\
  ds <> EmptyString /\ all_digits ds = true /\ no_leading_digit post = true.

(** No [max-age=<digit>] starts in [cc] before offset [n]. *)
Definition none_before (cc : string) (n : nat) : Prop :=
  forall pre' d post',
    is_digit d = true -> cc = pre' +:+ "max-age=" +:+ String d post' ->
    (n <= String.length pre')%nat.

(** [cc] has no [max-age=<digit>] anywhere. *)
Definition no_max_age (cc : string) : Prop :=
  forall pre' d post',
    is_digit d = true -> cc <> pre' +:+ "max-age=" +:+ String d post'.

(** [s] joined from the pieces [l] with commas. *)
Fixpoint join_comma (l : list string) : string :=
  match l with
  | [] => EmptyString
  | [x] => x
  | x :: l' => x +:+ String ","%char (join_comma l')
  end.

Fixpoint has_comma (s : string) : bool :=
  match s with
  | EmptyString => false
  | String c rest => Ascii.eqb c ","%char || has_comma rest
  end.

(** A decision procedure for [none_before]: no anchored match at the
    first [n] offsets. *)
Fixpoint unmatched_prefix (n : nat) (cc : string) : bool :=
  match n with
  | O => true
  | S n' =>
      match match_here cc with
      | Some _ => false
      | None =>
          match cc with
          | String _ rest => unmatched_prefix n' rest
          | EmptyString => true
          end
      end
  end.

(** ** What the pipeline is stated with *)

Section Observations.

Context {L : Lib}.

(** One round of [checkSegment]: the request, the entry pushed, the
    sleep. *)
Definition check_one (verifyFn : option (Headers -> completion bool))
    (base : string) (doDownload : bool) (segmentUrl : string) (st : Walk) : Walk :=
  checkSegment verifyFn base doDownload [segmentUrl] st.

(** The URLs requested, in the order of the requests. *)
Fixpoint probe_urls (tr : list event) : list string :=
  match tr with
  | [] => []
  | ProbeStart url _ :: tr' => url :: probe_urls tr'
  | ProbeEnd _ _ :: tr' => probe_urls tr'
  end.

(** Modelled from the spec: what [util.sleep] of [lib/util.js], which is
    not part of the sources at hand, does to the clock. The spec has the
    delay as a minimum between the completion of one probe and the start
    of the next: the call returns no sooner than [ms] milliseconds after
    it was made. *)
Definition sleep_blocks : Prop :=
  forall (ms : Z) (w : World), getTime w + ms <= getTime (sleep ms w).

(** The events of a walk over [it] that starts in the world [w]. *)
Fixpoint walk_events (verifyFn : option (Headers -> completion bool))
    (base : string) (doDownload : bool) (it : list string) (w : World) : list event :=
  match it with
  | [] => []
  | segmentUrl :: it' =>
      let url := base +:+ segmentUrl in
      let w' := (verifySegment (default defaultVerifyFn verifyFn) url doDownload w).2 in
      ProbeStart url (getTime w) :: ProbeEnd url (getTime w') ::
      walk_events verifyFn base doDownload it' (sleep 50 w')
  end.

End Observations.

(** The spec's words for the sample of a spotcheck: [n] draws from
    [items], each uniform and independent of the others, with
    replacement. As a list of equally likely outcomes these are all the
    sequences of [n] positions of [items]. *)
Fixpoint independent_draws (n : nat) (items : list string) : list (list string) :=
  match n with
  | O => [[]]
  | S n' => x ← items; (cons x) <$> independent_draws n' items
  end.

(** ** A small network to run the validator on *)

Module Demo.

Definition good_headers : Headers :=
  {[ "cache-control" := "max-age=5"; "access-control-expose-headers" := "Date";
     "access-control-allow-headers" := "origin" ]}.

Definition uncached_headers : Headers :=
  {[ "access-control-expose-headers" := "Date";
     "access-control-allow-headers" := "origin" ]}.

Definition cache_only_headers : Headers := {[ "cache-control" := "max-age=5" ]}.

Definition timed_out : value := VError "Error" "ETIMEDOUT".

Definition respond (url : string) : completion Headers :=
  if String.eqb url "http://example.com/seg1.m4s" then Normal good_headers
  else if String.eqb url "http://example.com/seg2.m4s" then Normal uncached_headers
  else if String.eqb url "http://example.com/seg4.m4s" then Normal cache_only_headers
  else Throw timed_out.

(** The world is the clock; a HEAD takes 20 ms, a GET 200 ms, a sleep
    as long as asked; the runner keeps its listeners in a list. *)
Definition lib : Lib := {|
  World := Z;
  getTime := fun w => w;
  requestHeaders := fun url w => (respond url, w + 20);
  requestCacheFill := fun url w => (respond url, w + 200);
  sleep := fun ms w => w + ms;
  Runner := list (string * nat);
  Callback := nat;
  Runner_on := fun eventName fn r => Normal (r ++ [(eventName, fn)])
|}.

Definition live : Manifest :=
  {| type := "dynamic"; timeAtHead := 1000;
     segments := ["seg1.m4s"; "seg2.m4s"; "seg3.m4s"] |}.

Definition validator : @DashValidator lib :=
  @Build_DashValidator lib
    "http://example.com/live.mpd"                      (* _src *)
    live                                               (* _manifest *)
    "http://example.com/"                              (* _base *)
    {[ "cache-control" := "public, max-age=5" ]}       (* _manifestHeaders *)
    [].                                                (* _runner *)

End Demo.

(** ** The rest of the validator object *)

(** The collaborators of [load] and of [validateDynamicManifest]:
    [util.getBaseUrl], [util.requestXml] (which resolves with the body
    and the response headers), the parser of [lib/dash_parser.js], and
    the constructor and [updateMpd] of the runner. *)
Class Loader {L : Lib} : Type := {
  Xml : Type;
  (** [util.getBaseUrl(src)] *)
  getBaseUrl : string -> string;
  (** [util.requestXml(src)], resolving with [{xml, headers}] *)
  requestXml : string -> World -> completion (Xml * Headers) * World;
  (** [new DashParser().parse(xml)] *)
  parse : Xml -> World -> completion Manifest * World;
  (** [new DashValidatorRunner(manifest, headers, n)] *)
  newRunner : Manifest -> Headers -> Z -> Runner;
  (** [runner.updateMpd(manifest, headers)] *)
  Runner_updateMpd : Manifest -> Headers -> Runner -> completion Runner
}.

(** How a promise ends up: fulfilled, rejected, or never settled. *)
Inductive settlement : Type :=
| Fulfilled
| Rejected (e : value)
| Pending.

Section Facade.

Context {L : Lib} {LD : Loader}.

(** The object as the constructor leaves it and as [load] fills it:
    [_manifest], [_manifestHeaders] and [_runner] start [undefined]. *)
Record ValidatorObject : Type := {
  obj_src : string;
  obj_manifest : option Manifest;
  obj_base : string;
  obj_manifestHeaders : option Headers;
  obj_runner : option Runner
}.

(** [new DashValidator(src)] *)
Definition constructor (src : string) : ValidatorObject :=
  {| obj_src := src; obj_manifest := None; obj_base := EmptyString;
     obj_manifestHeaders := None; obj_runner := None |}.

(** [load()]: how the promise settles, the object and the world
    afterwards. A rejection of the request or of the parser goes to
    [reject] through the two [catch] handlers. *)
Definition load (this : ValidatorObject) (w : World)
    : settlement * ValidatorObject * World :=
  let this1 :=
    {| obj_src := obj_src this; obj_manifest := obj_manifest this;
       obj_base := getBaseUrl (obj_src this) +:+ "/";
       obj_manifestHeaders := obj_manifestHeaders this; obj_runner := obj_runner this |} in
  match requestXml (obj_src this1) w with
  | (Throw err, w1) => (Rejected err, this1, w1)
  | (Normal (xml, resp_headers), w1) =>
      let this2 :=
        {| obj_src := obj_src this1; obj_manifest := obj_manifest this1;
           obj_base := obj_base this1;
           obj_manifestHeaders := Some resp_headers; obj_runner := obj_runner this1 |} in
      match parse xml w1 with
      | (Throw err, w2) => (Rejected err, this2, w2)
      | (Normal manifest, w2) =>
          (Fulfilled,
           {| obj_src := obj_src this2; obj_manifest := Some manifest;
              obj_base := obj_base this2;
              obj_manifestHeaders := obj_manifestHeaders this2;
              obj_runner := Some (newRunner manifest resp_headers 10) |},
           w2)
      end
  end.

(** The object read as a loaded validator, when all its fields are
    there. *)
Definition loaded (this : ValidatorObject) : option DashValidator :=
  match obj_manifest this, obj_manifestHeaders this, obj_runner this with
  | Some manifest, Some hdrs, Some runner =>
      Some {| _src := obj_src this; _manifest := manifest; _base := obj_base this;
              _manifestHeaders := hdrs; _runner := runner |}
  | _, _, _ => None
  end.

Definition with_manifest (this : DashValidator) (manifest : Manifest) : DashValidator :=
  {| _src := _src this; _manifest := manifest; _base := _base this;
     _manifestHeaders := _manifestHeaders this; _runner := _runner this |}.

(** The function [validateDynamicManifest] hands to the runner: download,
    parse and update the MPD. Its promise has no [reject]; a failed
    request or parse, or a throw of [updateMpd], leaves it unsettled. *)
Definition refreshMpd (this : DashValidator) (w : World)
    : settlement * DashValidator * World :=
  match requestXml (_src this) w with
  | (Throw _, w1) => (Pending, this, w1)
  | (Normal (xml, resp_headers), w1) =>
      match parse xml w1 with
      | (Throw _, w2) => (Pending, this, w2)
      | (Normal manifest, w2) =>
          let this1 := with_manifest this manifest in
          match Runner_updateMpd manifest resp_headers (_runner this1) with
          | Normal runner => (Fulfilled, with_runner this1 runner, w2)
          | Throw _ => (Pending, this1, w2)
          end
      end
  end.

(** [on(eventName, fn)] on the object as it is, loaded or not: the call
    [this._runner.on(...)] on a runner that is still [undefined] is a
    [TypeError]. *)
Definition obj_on (this : ValidatorObject) (eventName : string) (fn : Callback)
    : completion ValidatorObject :=
  if negb (indexOf ["invalidplayhead"; "invalidheaders"; "checking"] eventName =? -1) then
    match obj_runner this with
    | None => Throw (cannot_read "on")
    | Some runner =>
        bind (Runner_on eventName fn runner)
             (fun r =>
                Normal {| obj_src := obj_src this; obj_manifest := obj_manifest this;
                          obj_base := obj_base this;
                          obj_manifestHeaders := obj_manifestHeaders this;
                          obj_runner := Some r |})
    end
  else Normal this.

(** [segmentUrls()] *)
Definition segmentUrls (this : DashValidator) : list string :=
  segments (_manifest this).

(** [isLive()] *)
Definition isLive (this : DashValidator) : bool :=
  String.eqb (type (_manifest this)) "dynamic".

(** Two stretches of a walk put together: the lists and the events of
    the second follow those of the first; the world is the later one. *)
Definition walk_append (st later : Walk) : Walk :=
  {| walk_failed := walk_failed st ++ walk_failed later;
     walk_ok := walk_ok st ++ walk_ok later;
     walk_world := walk_world later;
     walk_trace := walk_trace st ++ walk_trace later |}.

(** An entry of [failed] never has both a reason and headers. *)
Definition reason_or_headers (entry : FailedInfo) : Prop :=
  headers entry = None \/ reason entry = VUndefined.

(** No request turns the clock back. *)
Definition clock_monotone : Prop :=
  forall (doDownload : bool) (url : string) (w : World),
    getTime w <= getTime (select_reqFn doDownload url w).2.

End Facade.

(** ** A world with a clock

    What a request and a sleep do to the time: the world is the clock
    reading (ms) and the state of the network. A request answers, takes
    some time (never a negative one) and leaves the network in a new
    state; it may depend on the time it is made at. *)
Class Transport : Type := {
  Net : Type;
  (** [util.requestHeaders]: the answer, the time taken, the network after *)
  head_request : string -> Z -> Net -> completion Headers * N * Net;
  (** [util.requestCacheFill] *)
  get_request : string -> Z -> Net -> completion Headers * N * Net;
  (** by how much a sleep of [ms], begun at a time and a state of the
      network, runs over *)
  oversleep : Z -> Z -> Net -> N;
  transport_Runner : Type;
  transport_Callback : Type;
  transport_Runner_on :
    string -> transport_Callback -> transport_Runner -> completion transport_Runner
}.

Section Clocked.

Context {T : Transport}.

Definition clocked_request (req : string -> Z -> Net -> completion Headers * N * Net)
    (url : string) (w : Z * Net) : completion Headers * (Z * Net) :=
  let '(response, took, net') := req url w.1 w.2 in
  (response, (w.1 + Z.of_N took, net')).

(** Modelled from the spec: [util.sleep] of [lib/util.js], which is not
    part of the sources at hand. The spec has it as the fixed minimum
    delay between the completion of one probe and the start of the next:
    the call [sleep(ms)] returns when [ms] milliseconds or more have
    passed, and that is all it does. *)
Definition clocked_sleep (ms : Z) (w : Z * Net) : Z * Net :=
  (w.1 + ms + Z.of_N (oversleep ms w.1 w.2), w.2).

Definition clocked_lib : Lib :=
  {| World := Z * Net;
     getTime := fst;
     requestHeaders := clocked_request head_request;
     requestCacheFill := clocked_request get_request;
     sleep := clocked_sleep;
     Runner := transport_Runner;
     Callback := transport_Callback;
     Runner_on := transport_Runner_on |}.

End Clocked.

(** A transport to run the clocked world on: the answers of the small
    network, a HEAD of 20 ms that gets 1 ms slower with each request, and
    sleeps that run over by 3 ms. *)
Module DemoTransport.

Definition transport : Transport :=
  {| Net := N;
     head_request := fun url _ n => (Demo.respond url, 20 + n, n + 1)%N;
     get_request := fun url _ n => (Demo.respond url, 200 + n, n + 1)%N;
     oversleep := fun _ _ _ => 3%N;
     transport_Runner := list (string * nat);
     transport_Callback := nat;
     transport_Runner_on := fun eventName fn r => Normal (r ++ [(eventName, fn)]) |}.

Definition validator : @DashValidator (clocked_lib (T := transport)) :=
  @Build_DashValidator (clocked_lib (T := transport))
    "http://example.com/live.mpd" Demo.live "http://example.com/"
    {[ "cache-control" := "max-age=5" ]} [].

End DemoTransport.

(** The loader of the small network. *)
Module DemoLoader.

Definition mpd_headers : Headers := {[ "cache-control" := "max-age=2" ]}.

Definition vod : Manifest :=
  {| type := "static"; timeAtHead := 0; segments := ["seg1.m4s"; "seg3.m4s"] |}.

Definition loader : @Loader Demo.lib :=
  @Build_Loader Demo.lib
    string
    (fun _ => "http://example.com")
    (fun src w =>
       if String.eqb src "http://example.com/live.mpd"
       then (Normal ("<MPD live>", mpd_headers), w + 30)
       else if String.eqb src "http://example.com/vod.mpd"
       then (Normal ("<MPD vod>", mpd_headers), w + 30)
       else if String.eqb src "http://example.com/broken.mpd"
       then (Normal ("<MP", mpd_headers), w + 30)
       else (Throw Demo.timed_out, w + 30))
    (fun xml w =>
       if String.eqb xml "<MPD live>" then (Normal Demo.live, w + 1)
       else if String.eqb xml "<MPD vod>" then (Normal vod, w + 1)
       else (Throw (VError "Error" "Unexpected end of input"), w + 1))
    (fun _ _ _ => [])
    (fun _ _ r => Normal (r ++ [("updated", 0%nat)])).

End DemoLoader.

(** ** Strings *)

Section Strings.

Lemma append_nil_l (s : string) : EmptyString +:+ s = s.
Proof. reflexivity. Qed.

Lemma append_cons (x : ascii) (a b : string) : String x a +:+ b = String x (a +:+ b).
Proof. reflexivity. Qed.

Lemma append_assoc (a b c : string) : (a +:+ b) +:+ c = a +:+ b +:+ c.
Proof.
  induction a as [|x a IH]; [reflexivity|].
  rewrite !append_cons. now rewrite IH.
Qed.

Lemma append_empty_r (a : string) : a +:+ EmptyString = a.
Proof.
  induction a as [|x a IH]; [reflexivity|].
  rewrite append_cons. now rewrite IH.
Qed.

Lemma strip_prefix_spec (p s r : string) :
  strip_prefix p s = Some r <-> s = p +:+ r.
Proof.
  revert s; induction p as [|a p IH]; intros s; simpl.
  - rewrite append_nil_l. split; congruence.
  - rewrite append_cons. destruct s as [|b s]; [split; discriminate|].
    destruct (Ascii.eqb_spec a b) as [->|Hne].
    + rewrite IH. split; congruence.
    + split; [discriminate | intros E; congruence].
Qed.

Lemma take_digits_all (s : string) : all_digits (take_digits s) = true.
Proof.
  induction s as [|c s IH]; simpl; [reflexivity|].
  destruct (is_digit c) eqn:E; simpl; [now rewrite E | reflexivity].
Qed.

(** The run of digits is a prefix, and what follows it is no digit. *)
Lemma take_digits_split (s : string) :
  exists post, s = take_digits s +:+ post /\ no_leading_digit post = true.
Proof.
  induction s as [|c s [post [E Hp]]]; simpl.
  - exists EmptyString. split; reflexivity.
  - destruct (is_digit c) eqn:Ed.
    + exists post. rewrite append_cons. split; [congruence | assumption].
    + exists (String c s). rewrite append_nil_l. simpl. now rewrite Ed.
Qed.

(** Greedy: a run of digits followed by no digit is taken whole. *)
Lemma take_digits_app (ds post : string) :
  all_digits ds = true -> no_leading_digit post = true ->
  take_digits (ds +:+ post) = ds.
Proof.
  intros Hd Hp. induction ds as [|c ds IH].
  - rewrite append_nil_l. destruct post as [|c post]; simpl in *; [reflexivity|].
    now destruct (is_digit c).
  - rewrite append_cons. simpl in *.
    apply andb_prop in Hd as [Hc Hd]. rewrite Hc. now rewrite IH.
Qed.

Lemma take_digits_head (d : ascii) (s : string) :
  is_digit d = true -> take_digits (String d s) <> EmptyString.
Proof. intros Hd. simpl. now rewrite Hd. Qed.

Lemma take_digits_nonempty (s : string) :
  take_digits s <> EmptyString ->
  exists d s', s = String d s' /\ is_digit d = true.
Proof.
  destruct s as [|c s]; simpl; [congruence|].
  destruct (is_digit c) eqn:E; [eauto | congruence].
Qed.

(** The anchored match, in words. *)
Lemma match_here_Some (s ds : string) :
  match_here s = Some ds <-> exists post, max_age_at s EmptyString ds post.
Proof.
  unfold match_here, max_age_at. split.
  - destruct (strip_prefix "max-age=" s) as [rest|] eqn:E; [|discriminate].
    apply strip_prefix_spec in E.
    destruct (take_digits rest) eqn:Et; [discriminate|].
    intros [= <-]. destruct (take_digits_split rest) as [post [Er Hp]].
    exists post. rewrite Et in Er. rewrite append_nil_l.
    repeat split; [now rewrite E, Er | discriminate | | assumption].
    rewrite <- Et. apply take_digits_all.
  - intros [post (E & Hne & Hd & Hp)]. rewrite append_nil_l in E.
    apply strip_prefix_spec in E. rewrite E.
    rewrite (take_digits_app _ _ Hd Hp). now destruct ds.
Qed.

Lemma match_here_None (s : string) :
  match_here s = None <->
  (forall d post', is_digit d = true -> s <> "max-age=" +:+ String d post').
Proof.
  unfold match_here. split.
  - intros Hm d post' Hd E. apply strip_prefix_spec in E. rewrite E in Hm.
    pose proof (take_digits_head d post' Hd) as Hne.
    destruct (take_digits (String d post')); congruence.
  - intros Hno. destruct (strip_prefix "max-age=" s) as [rest|] eqn:E; [|reflexivity].
    apply strip_prefix_spec in E.
    destruct (take_digits rest) eqn:Et; [reflexivity|]. exfalso.
    destruct (take_digits_nonempty rest) as (d & s' & -> & Hd); [congruence|].
    exact (Hno d s' Hd E).
Qed.

(** The search skips a prefix in which no match starts. *)
Lemma match_max_age_skip (pre s : string) :
  none_before (pre +:+ s) (String.length pre) ->
  match_max_age (pre +:+ s) = match_max_age s.
Proof.
  induction pre as [|c pre IH]; intros Hnb; [reflexivity|].
  rewrite append_cons in *. cbn [match_max_age].
  assert (Hh : match_here (String c (pre +:+ s)) = None).
  { apply match_here_None. intros d post' Hd E.
    specialize (Hnb EmptyString d post' Hd E). simpl in Hnb. lia. }
  rewrite Hh. apply IH.
  intros pre' d post' Hd E.
  specialize (Hnb (String c pre') d post' Hd).
  rewrite append_cons, <- E in Hnb. specialize (Hnb eq_refl). simpl in Hnb. lia.
Qed.

(** The leftmost directive is the one the search returns. *)
Lemma match_max_age_leftmost (cc pre ds post : string) :
  max_age_at cc pre ds post -> none_before cc (String.length pre) ->
  match_max_age cc = Some ds.
Proof.
  intros (E & Hne & Hd & Hp) Hnb. subst cc.
  rewrite match_max_age_skip by assumption.
  assert (Hh : match_here ("max-age=" +:+ ds +:+ post) = Some ds).
  { apply match_here_Some. exists post. repeat split; assumption. }
  destruct ("max-age=" +:+ ds +:+ post) eqn:Es; [discriminate|].
  cbn [match_max_age]. now rewrite Hh.
Qed.

(** No directive, no match. *)
Lemma match_max_age_none (cc : string) :
  no_max_age cc -> match_max_age cc = None.
Proof.
  induction cc as [|c cc IH]; intros Hno.
  - reflexivity.
  - cbn [match_max_age].
    assert (Hh : match_here (String c cc) = None).
    { apply match_here_None. intros d post' Hd E.
      exact (Hno EmptyString d post' Hd E). }
    rewrite Hh. apply IH. intros pre' d post' Hd E.
    apply (Hno (String c pre') d post' Hd). rewrite append_cons. now rewrite E.
Qed.

(** A match is a directive somewhere in the text, and the first one. *)
Lemma match_max_age_sound (cc ds : string) :
  match_max_age cc = Some ds ->
  exists pre post, max_age_at cc pre ds post /\ none_before cc (String.length pre).
Proof.
  induction cc as [|c cc IH].
  - cbn. discriminate.
  - cbn [match_max_age]. destruct (match_here (String c cc)) as [ds'|] eqn:Hh.
    + intros [= ->]. apply match_here_Some in Hh as [post Hat].
      exists EmptyString, post. split; [assumption|].
      intros pre' d post' _ _. simpl. lia.
    + intros Hm. destruct (IH Hm) as (pre & post & (E & Hne & Hd & Hp) & Hnb).
      exists (String c pre), post. split.
      * repeat split; try assumption. rewrite append_cons. now rewrite E.
      * intros pre' d post' Hd' E'. destruct pre' as [|c' pre'].
        -- exfalso. rewrite match_here_None in Hh. exact (Hh d post' Hd' E').
        -- rewrite append_cons in E'. injection E' as _ E'.
           specialize (Hnb pre' d post' Hd' E'). simpl. lia.
Qed.

End Strings.

(** ** Arrays of strings *)

Section Arrays.

Lemma indexOf_from_range (from : Z) (l : list string) (x : string) :
  0 <= from -> indexOf_from from l x = -1 \/ from <= indexOf_from from l x.
Proof.
  revert from; induction l as [|y l IH]; intros from Hfrom; simpl.
  - now left.
  - destruct (String.eqb y x); [right; lia|].
    destruct (IH (from + 1)) as [E|E]; [lia | now left | right; lia].
Qed.

Lemma indexOf_from_absent (from : Z) (l : list string) (x : string) :
  0 <= from -> (indexOf_from from l x = -1 <-> x ∉ l).
Proof.
  revert from; induction l as [|y l IH]; intros from Hfrom; simpl.
  - split; [intros _; apply not_elem_of_nil | reflexivity].
  - rewrite not_elem_of_cons. destruct (String.eqb_spec y x) as [->|Hne].
    + split; [lia | intros [Hx _]; congruence].
    + rewrite IH by lia. split; [intros Hx; split; congruence | now intros [_ Hx]].
Qed.

(** [l.indexOf(x) == -1] says that [x] is no element of [l]. *)
Lemma indexOf_absent (l : list string) (x : string) :
  (indexOf l x =? -1) = true <-> x ∉ l.
Proof. unfold indexOf. rewrite Z.eqb_eq. apply indexOf_from_absent. lia. Qed.

Lemma indexOf_present (l : list string) (x : string) :
  (indexOf l x =? -1) = false <-> x ∈ l.
Proof.
  rewrite <- Bool.not_true_iff_false, indexOf_absent.
  destruct (decide (x ∈ l)); tauto.
Qed.

Lemma split_comma_nonempty (s : string) : split_comma s <> [].
Proof.
  induction s as [|c s IH]; simpl; [discriminate|].
  destruct (Ascii.eqb c ","); [discriminate|].
  destruct (split_comma s); [congruence | discriminate].
Qed.

(** The pieces joined with commas give the string back. *)
Lemma join_split_comma (s : string) : join_comma (split_comma s) = s.
Proof.
  induction s as [|c s IH]; [reflexivity|].
  simpl. destruct (Ascii.eqb_spec c ",") as [->|Hne].
  - pose proof (split_comma_nonempty s) as Hne.
    simpl. destruct (split_comma s) as [|t ts]; [congruence|].
    rewrite append_nil_l. now rewrite IH.
  - pose proof (split_comma_nonempty s) as Hn.
    destruct (split_comma s) as [|t ts]; [congruence|].
    destruct ts as [|t' ts]; simpl in *.
    + now rewrite IH.
    + rewrite append_cons. now rewrite IH.
Qed.

(** No piece holds a comma. *)
Lemma split_comma_pieces (s : string) :
  Forall (fun t => has_comma t = false) (split_comma s).
Proof.
  induction s as [|c s IH]; simpl.
  - now repeat constructor.
  - destruct (Ascii.eqb c ",") eqn:E.
    + now constructor.
    + destruct (split_comma s) as [|t ts] eqn:Es.
      * now apply split_comma_nonempty in Es.
      * inversion IH as [|? ? Ht Hts]; subst. constructor; [|assumption].
        simpl. now rewrite E.
Qed.

End Arrays.

(** ** The default segment predicate *)

Section DefaultVerifyFn.

Variable headers : Headers.

(** Without [cache-control] the other headers are not looked at. *)
Lemma defaultVerifyFn_no_cache_control :
  headers !! "cache-control" = None -> defaultVerifyFn headers = Normal false.
Proof.
  intros E. unfold defaultVerifyFn. rewrite E.
  rewrite bool_decide_eq_true_2 by reflexivity. reflexivity.
Qed.

(** With the three headers in place the predicate returns, and what it
    returns is the membership of the two tokens. *)
Lemma defaultVerifyFn_present (cc e a : string) :
  headers !! "cache-control" = Some cc ->
  headers !! "access-control-expose-headers" = Some e ->
  headers !! "access-control-allow-headers" = Some a ->
  defaultVerifyFn headers =
    Normal (bool_decide ("Date" ∈ split_comma e) && bool_decide ("origin" ∈ split_comma a)).
Proof.
  intros Ec Ee Ea. unfold defaultVerifyFn, split_header. rewrite Ec, Ee, Ea.
  rewrite bool_decide_eq_false_2 by discriminate. cbn [orelse bind].
  destruct (indexOf (split_comma e) "Date" =? -1) eqn:Hd.
  - apply indexOf_absent in Hd. rewrite (bool_decide_eq_false_2 _ Hd). reflexivity.
  - apply indexOf_present in Hd. rewrite (bool_decide_eq_true_2 _ Hd).
    destruct (indexOf (split_comma a) "origin" =? -1) eqn:Ho.
    + apply indexOf_absent in Ho. rewrite (bool_decide_eq_false_2 _ Ho). reflexivity.
    + apply indexOf_present in Ho. rewrite (bool_decide_eq_true_2 _ Ho). reflexivity.
Qed.

(** [cache-control] present and [access-control-expose-headers] absent:
    the [split] is called on [undefined]. *)
Lemma defaultVerifyFn_no_expose_headers :
  headers !! "cache-control" <> None ->
  headers !! "access-control-expose-headers" = None ->
  defaultVerifyFn headers = Throw (cannot_read "split").
Proof.
  intros Ec Ee. unfold defaultVerifyFn, split_header. rewrite Ee.
  rewrite bool_decide_eq_false_2 by assumption. reflexivity.
Qed.

(** X1: the predicate returns [true] exactly when [cache-control] is
    there, [access-control-expose-headers] split at the commas has the
    piece [Date], and [access-control-allow-headers] split at the commas
    has the piece [origin]; the pieces are compared as they are, case
    and blanks included. *)
Lemma defaultVerifyFn_true_iff :
  defaultVerifyFn headers = Normal true <->
  is_Some (headers !! "cache-control") /\
  (exists e, headers !! "access-control-expose-headers" = Some e /\ "Date" ∈ split_comma e) /\
  (exists a, headers !! "access-control-allow-headers" = Some a /\ "origin" ∈ split_comma a).
Proof.
  split.
  - unfold defaultVerifyFn, split_header.
    destruct (headers !! "cache-control") as [cc|] eqn:Ec.
    2: { rewrite bool_decide_eq_true_2 by reflexivity. discriminate. }
    rewrite bool_decide_eq_false_2 by discriminate. cbn [orelse bind].
    destruct (headers !! "access-control-expose-headers") as [e|] eqn:Ee; [|discriminate].
    cbn [orelse bind].
    destruct (indexOf (split_comma e) "Date" =? -1) eqn:Hd; [discriminate|].
    destruct (headers !! "access-control-allow-headers") as [a|] eqn:Ea; [|discriminate].
    cbn [orelse bind].
    destruct (indexOf (split_comma a) "origin" =? -1) eqn:Ho; [discriminate|].
    intros _. apply indexOf_present in Hd, Ho. eauto 7.
  - intros ([cc Ec] & (e & Ee & Hd) & (a & Ea & Ho)).
    rewrite (defaultVerifyFn_present cc e a) by assumption.
    now rewrite !bool_decide_eq_true_2.
Qed.

End DefaultVerifyFn.

(** C4, at the headers of the spec's example with
    [access-control-expose-headers] left out: the default segment
    predicate does not return [false]; it throws the [TypeError] of a
    [split] on [undefined]. *)
Theorem defaultVerifyFn_missing_expose_headers_throws :
  defaultVerifyFn
    {[ "cache-control" := "max-age=5"; "access-control-allow-headers" := "origin" ]}
  = Throw (VError "TypeError" "Cannot read properties of undefined (reading 'split')").
Proof. vm_compute. reflexivity. Qed.

(** The spec's passing example does pass. *)
Example defaultVerifyFn_spec_example :
  defaultVerifyFn
    {[ "cache-control" := "max-age=5"; "access-control-expose-headers" := "Date";
       "access-control-allow-headers" := "origin" ]} = Normal true.
Proof. vm_compute. reflexivity. Qed.

(** ** The default manifest predicate *)

(** C6: the default manifest predicate passes every static manifest,
    whatever the headers; on a dynamic manifest it fails when
    [cache-control] is absent or holds no [max-age=<digits>], and
    otherwise, with [ds] the digits of the first such directive, it
    passes exactly when their number is at most [10]; [max-age=30] fails
    and [max-age=5] passes. *)
Theorem defaultManifestVerifyFn_policy :
  (forall headers : Headers, defaultManifestVerifyFn headers "static" = true) /\
  (forall headers : Headers,
      headers !! "cache-control" = None ->
      defaultManifestVerifyFn headers "dynamic" = false) /\
  (forall (headers : Headers) cc,
      headers !! "cache-control" = Some cc -> no_max_age cc ->
      defaultManifestVerifyFn headers "dynamic" = false) /\
  (forall (headers : Headers) cc pre ds post,
      headers !! "cache-control" = Some cc ->
      max_age_at cc pre ds post -> none_before cc (String.length pre) ->
      (defaultManifestVerifyFn headers "dynamic" = true <-> to_number ds <= 10)) /\
  defaultManifestVerifyFn {[ "cache-control" := "max-age=30" ]} "dynamic" = false /\
  defaultManifestVerifyFn {[ "cache-control" := "max-age=5" ]} "dynamic" = true /\
  defaultManifestVerifyFn ∅ "static" = true.
Proof.
  split; [reflexivity|].
  split; [intros headers E; unfold defaultManifestVerifyFn; now rewrite E|].
  split.
  { intros headers cc E Hno. unfold defaultManifestVerifyFn. rewrite E.
    rewrite (match_max_age_none cc Hno). now destruct cc. }
  split; [|repeat split; reflexivity].
  intros headers cc pre ds post E Hat Hnb.
  unfold defaultManifestVerifyFn.
  rewrite E, (match_max_age_leftmost _ _ _ _ Hat Hnb). cbn.
  destruct Hat as (Ecc & _).
  destruct cc; [destruct pre; discriminate|].
  destruct (Z.gtb_spec (to_number ds) 10); split; (discriminate || lia || reflexivity).
Qed.

Lemma unmatched_prefix_none_before (n : nat) (cc : string) :
  unmatched_prefix n cc = true -> none_before cc n.
Proof.
  revert cc; induction n as [|n IH]; intros cc Hu pre' d post' Hd E.
  - lia.
  - simpl in Hu. destruct (match_here cc) eqn:Hh; [discriminate|].
    destruct pre' as [|c pre'].
    + exfalso. rewrite match_here_None in Hh. exact (Hh d post' Hd E).
    + subst cc. rewrite append_cons in Hu.
      specialize (IH _ Hu pre' d post' Hd eq_refl). simpl. lia.
Qed.

Lemma defaultManifestVerifyFn_policy_witness :
  defaultManifestVerifyFn {[ "cache-control" := "public, max-age=5" ]} "dynamic" = true <->
  to_number "5" <= 10.
Proof.
  refine (proj1 (proj2 (proj2 (proj2 defaultManifestVerifyFn_policy)))
            {[ "cache-control" := "public, max-age=5" ]} "public, max-age=5"
            "public, " "5" "" _ _ _).
  - reflexivity.
  - repeat split. discriminate.
  - apply unmatched_prefix_none_before. reflexivity.
Defined.

(** ** verifyTimestamps *)

Section Timestamps.

Context {L : Lib}.
Variables (this : DashValidator) (w : World).

Lemma verifyTimestamps_static (allowedDiff : option Z) :
  type (_manifest this) = "static" ->
  verifyTimestamps this allowedDiff w = {| clock := "OK"; clockOffset := None |}.
Proof. intros E. unfold verifyTimestamps. now rewrite E. Qed.

(** On a dynamic manifest the verdict compares the offset with
    [diffCriteria]. *)
Lemma verifyTimestamps_dynamic (allowedDiff : option Z) :
  type (_manifest this) = "dynamic" ->
  let offset := Z.abs (timeAtHead (_manifest this) - getTime w) in
  let r := verifyTimestamps this allowedDiff w in
  clockOffset r = Some offset /\
  (clock r = "BAD" <-> offset > or_default allowedDiff 10000) /\
  (clock r = "OK" <-> offset <= or_default allowedDiff 10000).
Proof.
  intros E. unfold verifyTimestamps. rewrite E. cbn.
  destruct (Z.gtb_spec (Z.abs (timeAtHead (_manifest this) - getTime w))
              (or_default allowedDiff 10000)); cbn.
  - repeat split; try reflexivity; try lia. discriminate.
  - repeat split; try reflexivity; try lia. discriminate.
Qed.

End Timestamps.

(** X21: a static manifest gives [{clock: "OK"}] whatever [timeAtHead]
    is; on a dynamic manifest the offset
    [|timeAtHead - now|] is reported with either verdict, and the verdict
    is ["BAD"] exactly when the offset exceeds the threshold, which is
    [allowedDiff] when that is given and not zero, and [10000] when it is
    left out. *)
Theorem verifyTimestamps_verdict {L : Lib} (this : DashValidator) (w : World) :
  (forall allowedDiff,
      type (_manifest this) = "static" ->
      verifyTimestamps this allowedDiff w = {| clock := "OK"; clockOffset := None |}) /\
  (type (_manifest this) = "dynamic" ->
   let offset := Z.abs (timeAtHead (_manifest this) - getTime w) in
   (forall allowedDiff,
       clockOffset (verifyTimestamps this allowedDiff w) = Some offset /\
       (clock (verifyTimestamps this allowedDiff w) = "BAD" \/
        clock (verifyTimestamps this allowedDiff w) = "OK")) /\
   (forall a, a <> 0 ->
       (clock (verifyTimestamps this (Some a) w) = "BAD" <-> offset > a)) /\
   (clock (verifyTimestamps this None w) = "BAD" <-> offset > 10000)).
Proof.
  split; [intros a E; now apply verifyTimestamps_static|].
  intros E offset. split; [|split].
  - intros allowedDiff.
    destruct (verifyTimestamps_dynamic this w allowedDiff E) as (Hoff & Hbad & Hok).
    split; [exact Hoff|].
    destruct (Z_gt_le_dec offset (or_default allowedDiff 10000)) as [Hgt|Hle].
    + left. now apply Hbad.
    + right. now apply Hok.
  - intros a Ha.
    destruct (verifyTimestamps_dynamic this w (Some a) E) as (_ & Hbad & _).
    unfold or_default in Hbad. destruct (Z.eqb_spec a 0); [contradiction | exact Hbad].
  - exact (proj1 (proj2 (verifyTimestamps_dynamic this w None E))).
Qed.

(** The spec's example: a live edge 20 s behind, 5 s allowed. *)
Lemma verifyTimestamps_verdict_witness :
  clock (verifyTimestamps Demo.validator (Some 5000) (21000 : @World Demo.lib)) = "BAD" <->
  Z.abs (1000 - 21000) > 5000.
Proof.
  refine (proj1 (proj2 (proj2 (@verifyTimestamps_verdict Demo.lib Demo.validator 21000) _)) 5000 _).
  - reflexivity.
  - discriminate.
Defined.

(** C5, at [allowedDiff = 0] on a dynamic manifest whose live edge is
    5 ms off: the offset exceeds the tolerance asked for, and the verdict
    is ["OK"] with [clockOffset] 5. The zero is taken for a missing
    argument and the default of 10000 is compared instead. *)
Theorem verifyTimestamps_zero_tolerance_gives_ok :
  verifyTimestamps Demo.validator (Some 0) (995 : @World Demo.lib) =
    {| clock := "OK"; clockOffset := Some 5 |} /\
  Z.abs (timeAtHead Demo.live - 995) > 0.
Proof. split; [vm_compute; reflexivity | cbn; lia]. Qed.

(** With [allowedDiff = 0] the verdict is not "["BAD"] exactly when the
    offset exceeds [allowedDiff]". *)
Lemma verifyTimestamps_zero_tolerance_not_applied :
  ~ (clock (verifyTimestamps Demo.validator (Some 0) (995 : @World Demo.lib)) = "BAD" <->
     Z.abs (timeAtHead Demo.live - 995) > 0).
Proof.
  intros [_ H]. assert (Hgt : Z.abs (timeAtHead Demo.live - 995) > 0) by (cbn; lia).
  specialize (H Hgt). vm_compute in H. discriminate.
Qed.

(** C10: on a dynamic manifest [verifyTimestamps(0)] is
    [verifyTimestamps()]: the threshold is the default [10000], not
    zero. *)
Theorem verifyTimestamps_zero_is_default {L : Lib} (this : DashValidator) (w : World) :
  type (_manifest this) = "dynamic" ->
  verifyTimestamps this (Some 0) w = verifyTimestamps this None w /\
  (clock (verifyTimestamps this (Some 0) w) = "BAD" <->
   Z.abs (timeAtHead (_manifest this) - getTime w) > 10000).
Proof.
  intros E. split; [reflexivity|].
  apply (verifyTimestamps_dynamic this w (Some 0) E).
Qed.

Lemma verifyTimestamps_zero_is_default_witness :
  verifyTimestamps Demo.validator (Some 0) (995 : @World Demo.lib) =
  verifyTimestamps Demo.validator None (995 : @World Demo.lib) /\
  (clock (verifyTimestamps Demo.validator (Some 0) (995 : @World Demo.lib)) = "BAD" <->
   Z.abs (1000 - 995) > 10000).
Proof.
  apply (@verifyTimestamps_zero_is_default Demo.lib Demo.validator 995). reflexivity.
Defined.

(** ** on *)

(** C9: an event name outside [invalidplayhead], [invalidheaders],
    [checking] leaves the validator and its runner as they are and
    raises nothing; a name of the three is passed on to the runner's
    [on]. *)
Theorem on_event_names {L : Lib} (this : DashValidator) (eventName : string) (fn : Callback) :
  (eventName ∉ ["invalidplayhead"; "invalidheaders"; "checking"] ->
   on this eventName fn = Normal this) /\
  (eventName ∈ ["invalidplayhead"; "invalidheaders"; "checking"] ->
   on this eventName fn =
     bind (Runner_on eventName fn (_runner this)) (fun r => Normal (with_runner this r))).
Proof.
  unfold on. split; intros Hin.
  - apply indexOf_absent in Hin. now rewrite Hin.
  - apply indexOf_present in Hin. now rewrite Hin.
Qed.

Lemma on_event_names_witness :
  on Demo.validator "invalidplayheads" (7%nat : @Callback Demo.lib) = Normal Demo.validator /\
  on Demo.validator "checking" (7%nat : @Callback Demo.lib) =
    Normal (with_runner Demo.validator [("checking", 7%nat)]).
Proof.
  split.
  - apply (proj1 (@on_event_names Demo.lib Demo.validator "invalidplayheads" 7%nat)).
    intros Hin. repeat (apply elem_of_cons in Hin as [Hin|Hin]; [discriminate|]).
    now apply elem_of_nil in Hin.
  - refine (proj2 (@on_event_names Demo.lib Demo.validator "checking" 7%nat) _).
    repeat constructor.
Defined.

(** ** The segment walk *)

Section Walks.

Context {L : Lib}.
Variables (verifyFn : option (Headers -> completion bool)) (base : string) (doDownload : bool).

Local Abbreviation check := (checkSegment verifyFn base doDownload).
Local Abbreviation one := (check_one verifyFn base doDownload).
Local Abbreviation probe := (verifySegment (default defaultVerifyFn verifyFn)).

(** What one round does, by the result of [verifySegment]. *)
Lemma check_one_result (segmentUrl : string) (st : Walk) (result : SegmentResult) (w' : World) :
  probe (base +:+ segmentUrl) doDownload (walk_world st) = (result, w') ->
  one segmentUrl st =
    {| walk_failed :=
         if res_ok result then walk_failed st
         else walk_failed st ++
                [{| uri := segmentUrl; reason := res_reason result;
                    headers := res_headers result |}];
       walk_ok :=
         if res_ok result then walk_ok st ++ [{| ok_uri := segmentUrl |}] else walk_ok st;
       walk_world := sleep 50 w';
       walk_trace :=
         walk_trace st ++
           [ProbeStart (base +:+ segmentUrl) (getTime (walk_world st));
            ProbeEnd (base +:+ segmentUrl) (getTime w')] |}.
Proof.
  intros E. unfold check_one. cbn [checkSegment]. rewrite E.
  now destruct (res_ok result).
Qed.

Lemma checkSegment_cons (segmentUrl : string) (it : list string) (st : Walk) :
  check (segmentUrl :: it) st = check it (one segmentUrl st).
Proof.
  unfold check_one. cbn [checkSegment].
  destruct (probe (base +:+ segmentUrl) doDownload (walk_world st)) as [result w'].
  now destruct (res_ok result).
Qed.

(** A walk over [pre ++ post] is a walk over [pre], then one over
    [post]: no round ends the iteration early. *)
Lemma checkSegment_app (pre post : list string) (st : Walk) :
  check (pre ++ post) st = check post (check pre st).
Proof.
  revert st; induction pre as [|u pre IH]; intros st; [reflexivity|].
  rewrite <- app_comm_cons, !checkSegment_cons. apply IH.
Qed.

(** Every round files its segment under [ok] or under [failed]. *)
Lemma check_one_uris (segmentUrl : string) (st : Walk) :
  (ok_uri <$> walk_ok (one segmentUrl st)) ++ (uri <$> walk_failed (one segmentUrl st))
  ≡ₚ ((ok_uri <$> walk_ok st) ++ (uri <$> walk_failed st)) ++ [segmentUrl].
Proof.
  destruct (probe (base +:+ segmentUrl) doDownload (walk_world st)) as [result w'] eqn:E.
  rewrite (check_one_result _ _ _ _ E). cbn.
  destruct (res_ok result); rewrite fmap_app; cbn.
  - rewrite <- !app_assoc. apply Permutation_app_head, Permutation_app_comm.
  - now rewrite app_assoc.
Qed.

Lemma checkSegment_uris (it : list string) (st : Walk) :
  (ok_uri <$> walk_ok (check it st)) ++ (uri <$> walk_failed (check it st))
  ≡ₚ ((ok_uri <$> walk_ok st) ++ (uri <$> walk_failed st)) ++ it.
Proof.
  revert st; induction it as [|u it IH]; intros st.
  - cbn. now rewrite app_nil_r.
  - rewrite checkSegment_cons, IH, check_one_uris.
    now rewrite <- app_assoc.
Qed.

Lemma check_one_world (segmentUrl : string) (st : Walk) :
  walk_world (one segmentUrl st) =
  sleep 50 (probe (base +:+ segmentUrl) doDownload (walk_world st)).2.
Proof.
  destruct (probe (base +:+ segmentUrl) doDownload (walk_world st)) as [result w'] eqn:E.
  now rewrite (check_one_result _ _ _ _ E).
Qed.

(** The world after [verifySegment] is the one the request leaves. *)
Lemma verifySegment_world (f : Headers -> completion bool) (url : string) (w : World) :
  (verifySegment f url doDownload w).2 = (select_reqFn doDownload url w).2.
Proof.
  unfold verifySegment. destruct (select_reqFn doDownload url w) as [[hdrs|err] w']; cbn;
    [now destruct (f hdrs) | reflexivity].
Qed.

(** The world after a walk: for each item in turn the request for it,
    then the sleep. *)
Lemma checkSegment_world (it : list string) (st : Walk) :
  walk_world (check it st) =
  fold_left (fun w0 u => sleep 50 (select_reqFn doDownload (base +:+ u) w0).2)
    it (walk_world st).
Proof.
  revert st; induction it as [|u it IH]; intros st; [reflexivity|].
  rewrite checkSegment_cons, IH, check_one_world, verifySegment_world. reflexivity.
Qed.

Lemma check_one_trace (segmentUrl : string) (st : Walk) :
  walk_trace (one segmentUrl st) =
  walk_trace st ++
    [ProbeStart (base +:+ segmentUrl) (getTime (walk_world st));
     ProbeEnd (base +:+ segmentUrl)
       (getTime (probe (base +:+ segmentUrl) doDownload (walk_world st)).2)].
Proof.
  destruct (probe (base +:+ segmentUrl) doDownload (walk_world st)) as [result w'] eqn:E.
  now rewrite (check_one_result _ _ _ _ E).
Qed.

(** The events of a walk follow those seen before it. *)
Lemma checkSegment_trace (it : list string) (st : Walk) :
  walk_trace (check it st) =
  walk_trace st ++ walk_events verifyFn base doDownload it (walk_world st).
Proof.
  revert st; induction it as [|u it IH]; intros st.
  - cbn. now rewrite app_nil_r.
  - rewrite checkSegment_cons, IH, check_one_trace, check_one_world.
    cbn [walk_events]. now rewrite <- app_assoc.
Qed.

(** One request per item, in the items' order. *)
Lemma probe_urls_walk_events (it : list string) (w : World) :
  probe_urls (walk_events verifyFn base doDownload it w) = (fun u => base +:+ u) <$> it.
Proof.
  revert w; induction it as [|u it IH]; intros w; [reflexivity|].
  cbn. now rewrite IH.
Qed.

Lemma length_walk_events (it : list string) (w : World) :
  length (walk_events verifyFn base doDownload it w) = (2 * length it)%nat.
Proof.
  revert w; induction it as [|u it IH]; intros w; [reflexivity|].
  cbn [walk_events length]. rewrite IH. lia.
Qed.

(** The events of a walk over [pre ++ post]: those over [pre], then
    those over [post] in the world the first walk leaves. *)
Lemma walk_events_app (pre post : list string) (w : World) :
  walk_events verifyFn base doDownload (pre ++ post) w =
  walk_events verifyFn base doDownload pre w ++
  walk_events verifyFn base doDownload post
    (fold_left (fun w0 u => sleep 50 (select_reqFn doDownload (base +:+ u) w0).2) pre w).
Proof.
  revert w; induction pre as [|u pre IH]; intros w; [reflexivity|].
  cbn [app walk_events fold_left]. rewrite IH, verifySegment_world. reflexivity.
Qed.

(** The entry a round leaves in [failed] when the result is not ok; the
    entries before it stay. *)
Lemma checkSegment_failed_entry (pre post : list string) (u : string) (w : World)
    (result : SegmentResult) (w' : World) :
  let st := check pre (start_walk w) in
  probe (base +:+ u) doDownload (walk_world st) = (result, w') ->
  res_ok result = false ->
  walk_failed (check (pre ++ u :: post) (start_walk w)) !! length (walk_failed st) =
    Some {| uri := u; reason := res_reason result; headers := res_headers result |}.
Proof.
  intros st E Hok.
  assert (Hgrow : forall it st0, exists more,
             walk_failed (check it st0) = walk_failed st0 ++ more).
  { induction it as [|x it IH]; intros st0.
    - exists []. cbn. now rewrite app_nil_r.
    - rewrite checkSegment_cons. destruct (IH (one x st0)) as [more ->].
      destruct (probe (base +:+ x) doDownload (walk_world st0)) as [r0 w0] eqn:E0.
      rewrite (check_one_result _ _ _ _ E0). cbn. destruct (res_ok r0).
      + now exists more.
      + eexists. now rewrite <- app_assoc. }
  rewrite checkSegment_app, checkSegment_cons. fold st.
  destruct (Hgrow post (one u st)) as [more ->].
  rewrite (check_one_result _ _ _ _ E), Hok. cbn.
  rewrite <- app_assoc. cbn. now rewrite list_lookup_middle.
Qed.

End Walks.

(** ** verifySegments *)

Section Pipeline.

Context {L : Lib}.
Variables (this : DashValidator) (verifyFn : option (Headers -> completion bool)).
Variables (doDownload : bool) (w : World).

Lemma verifySegments_trace (segments : list string) :
  (verifySegments this verifyFn segments doDownload w).2 =
  walk_events verifyFn (_base this) doDownload segments w.
Proof. unfold verifySegments. cbn. now rewrite checkSegment_trace. Qed.

Lemma verifySegments_world (segments : list string) :
  (verifySegments this verifyFn segments doDownload w).1.2 =
  fold_left (fun w0 u => sleep 50 (select_reqFn doDownload (_base this +:+ u) w0).2)
    segments w.
Proof. unfold verifySegments. cbn. now rewrite checkSegment_world. Qed.

Lemma verifySegments_uris (segments : list string) :
  let r := verifySegments this verifyFn segments doDownload w in
  (ok_uri <$> ok r.1.1) ++ (uri <$> failed r.1.1) ≡ₚ segments.
Proof. unfold verifySegments. cbn. now rewrite checkSegment_uris. Qed.

Lemma verifySegments_lengths (segments : list string) :
  let r := verifySegments this verifyFn segments doDownload w in
  (length (ok r.1.1) + length (failed r.1.1))%nat = length segments.
Proof.
  intros r. rewrite <- (Permutation_length (verifySegments_uris segments)).
  now rewrite length_app, !length_fmap.
Qed.

Lemma verifySegments_probes (segments : list string) :
  probe_urls (verifySegments this verifyFn segments doDownload w).2 =
  (fun u => _base this +:+ u) <$> segments.
Proof. rewrite verifySegments_trace. apply probe_urls_walk_events. Qed.

Lemma verifySegments_entry (pre post : list string) (u : string)
    (result : SegmentResult) (w' : World) :
  let r0 := verifySegments this verifyFn pre doDownload w in
  let r := verifySegments this verifyFn (pre ++ u :: post) doDownload w in
  verifySegment (default defaultVerifyFn verifyFn) (_base this +:+ u) doDownload r0.1.2
    = (result, w') ->
  res_ok result = false ->
  failed r.1.1 !! length (failed r0.1.1) =
    Some {| uri := u; reason := res_reason result; headers := res_headers result |}.
Proof.
  intros r0 r E Hok.
  exact (checkSegment_failed_entry verifyFn (_base this) doDownload pre post u w result w' E Hok).
Qed.

End Pipeline.

(** A walk over the small network with the default predicate: the first
    segment passes, the second lacks [cache-control], the third times
    out, and on the fourth the predicate itself throws. *)
Example verifySegments_demo_run :
  verifySegments Demo.validator None ["seg1.m4s"; "seg2.m4s"; "seg3.m4s"; "seg4.m4s"] false
    (0 : @World Demo.lib) =
  ({| failed :=
        [{| uri := "seg2.m4s"; reason := VUndefined;
            headers := Some Demo.uncached_headers |};
         {| uri := "seg3.m4s"; reason := Demo.timed_out; headers := None |};
         {| uri := "seg4.m4s"; reason := cannot_read "split"; headers := None |}];
      ok := [{| ok_uri := "seg1.m4s" |}] |},
   280,
   [ProbeStart "http://example.com/seg1.m4s" 0; ProbeEnd "http://example.com/seg1.m4s" 20;
    ProbeStart "http://example.com/seg2.m4s" 70; ProbeEnd "http://example.com/seg2.m4s" 90;
    ProbeStart "http://example.com/seg3.m4s" 140; ProbeEnd "http://example.com/seg3.m4s" 160;
    ProbeStart "http://example.com/seg4.m4s" 210; ProbeEnd "http://example.com/seg4.m4s" 230]).
Proof. vm_compute. reflexivity. Qed.

(** C1: the report of [verifySegments] partitions its input. The
    lengths of [ok] and [failed] add up to the number of segments, and
    the URIs filed under the two are the segments of the input up to
    order. Each segment is attempted once: the world the walk leaves is
    the one reached from the first by taking the segments in the input's
    order and, for each, issuing the request for [base + segment] through
    [reqFn] and then sleeping; the requests logged are these, one per
    segment. *)
Theorem verifySegments_partition {L : Lib} (this : DashValidator)
    (verifyFn : option (Headers -> completion bool)) (segments : list string)
    (doDownload : bool) (w : World) :
  let r := verifySegments this verifyFn segments doDownload w in
  (length (ok r.1.1) + length (failed r.1.1))%nat = length segments /\
  (ok_uri <$> ok r.1.1) ++ (uri <$> failed r.1.1) ≡ₚ segments /\
  probe_urls r.2 = (fun u => _base this +:+ u) <$> segments /\
  r.1.2 =
    fold_left (fun w0 u => sleep 50 (select_reqFn doDownload (_base this +:+ u) w0).2)
      segments w.
Proof.
  intros r. split; [apply verifySegments_lengths|].
  split; [apply verifySegments_uris|].
  split; [apply verifySegments_probes | apply verifySegments_world].
Qed.

(** C2: when the request for a segment [u] is rejected with [err], the
    report holds the entry [{uri: u, reason: err}] (no headers) in
    [failed], right after the failures of the segments before [u]; the
    walk goes on: every segment of the list, those after [u] too, is
    requested once and filed. *)
Theorem verifySegments_transport_error {L : Lib} (this : DashValidator)
    (verifyFn : option (Headers -> completion bool)) (pre post : list string) (u : string)
    (doDownload : bool) (w : World) (err : value) (w' : World) :
  let r0 := verifySegments this verifyFn pre doDownload w in
  let r := verifySegments this verifyFn (pre ++ u :: post) doDownload w in
  select_reqFn doDownload (_base this +:+ u) r0.1.2 = (Throw err, w') ->
  failed r.1.1 !! length (failed r0.1.1) =
    Some {| uri := u; reason := err; headers := None |} /\
  probe_urls r.2 = (fun x => _base this +:+ x) <$> (pre ++ u :: post) /\
  (length (ok r.1.1) + length (failed r.1.1))%nat = length (pre ++ u :: post).
Proof.
  intros r0 r E. split; [|split].
  - apply (verifySegments_entry this verifyFn doDownload w pre post u
             {| res_ok := false; res_reason := err; res_headers := None |} w');
      [|reflexivity].
    unfold verifySegment. fold r0. now rewrite E.
  - apply verifySegments_probes.
  - apply verifySegments_lengths.
Qed.

Lemma verifySegments_transport_error_witness :
  let r := verifySegments Demo.validator None ["seg1.m4s"; "seg3.m4s"; "seg2.m4s"] false
             (0 : @World Demo.lib) in
  failed r.1.1 !! 0%nat =
    Some {| uri := "seg3.m4s"; reason := Demo.timed_out; headers := None |} /\
  probe_urls r.2 =
    (fun x => "http://example.com/" +:+ x) <$> ["seg1.m4s"; "seg3.m4s"; "seg2.m4s"] /\
  (length (ok r.1.1) + length (failed r.1.1))%nat = 3%nat.
Proof.
  apply (@verifySegments_transport_error Demo.lib Demo.validator None
           ["seg1.m4s"] ["seg2.m4s"] "seg3.m4s" false 0 Demo.timed_out 90).
  reflexivity.
Defined.

(** C3, as the code has it: when the request for [u] resolves with
    [hdrs] and the predicate returns [false] on them, the entry in
    [failed] is [{uri: u, headers: hdrs}] with [reason] left
    [undefined]; it differs from the entry of a rejected request, which
    has a reason and no headers. *)
Theorem verifySegments_policy_failure {L : Lib} (this : DashValidator)
    (verifyFn : option (Headers -> completion bool)) (pre post : list string) (u : string)
    (doDownload : bool) (w : World) (hdrs : Headers) (w' : World) :
  let r0 := verifySegments this verifyFn pre doDownload w in
  let r := verifySegments this verifyFn (pre ++ u :: post) doDownload w in
  select_reqFn doDownload (_base this +:+ u) r0.1.2 = (Normal hdrs, w') ->
  default defaultVerifyFn verifyFn hdrs = Normal false ->
  failed r.1.1 !! length (failed r0.1.1) =
    Some {| uri := u; reason := VUndefined; headers := Some hdrs |} /\
  (forall err, {| uri := u; reason := VUndefined; headers := Some hdrs |} <>
               {| uri := u; reason := err; headers := None |}).
Proof.
  intros r0 r E Hp. split; [|discriminate].
  apply (verifySegments_entry this verifyFn doDownload w pre post u
           {| res_ok := false; res_reason := VUndefined; res_headers := Some hdrs |} w');
    [|reflexivity].
  unfold verifySegment. fold r0. now rewrite E, Hp.
Qed.

Lemma verifySegments_policy_failure_witness :
  let r := verifySegments Demo.validator None ["seg1.m4s"; "seg2.m4s"] false
             (0 : @World Demo.lib) in
  failed r.1.1 !! 0%nat =
    Some {| uri := "seg2.m4s"; reason := VUndefined; headers := Some Demo.uncached_headers |}.
Proof.
  refine (proj1 (@verifySegments_policy_failure Demo.lib Demo.validator None
           ["seg1.m4s"] [] "seg2.m4s" false 0 Demo.uncached_headers 90 _ _)).
  - reflexivity.
  - reflexivity.
Defined.

(** C3 as it is written fails: the request for [seg2.m4s] resolves, the
    default predicate returns [false] on its headers, and the reason of
    the entry in [failed] is not the string ["policy"]. *)
Lemma verifySegments_policy_reason_is_not_policy :
  let r := verifySegments Demo.validator None ["seg2.m4s"] false (0 : @World Demo.lib) in
  select_reqFn false (_base Demo.validator +:+ "seg2.m4s") (0 : @World Demo.lib)
    = (Normal Demo.uncached_headers, 20) /\
  defaultVerifyFn Demo.uncached_headers = Normal false /\
  exists entry, failed r.1.1 = [entry] /\ uri entry = "seg2.m4s" /\
                reason entry <> VString "policy".
Proof.
  split; [reflexivity|]. split; [reflexivity|].
  eexists. split; [reflexivity|]. split; [reflexivity|]. discriminate.
Qed.

(** ** spotcheckSegments *)

Section Draws.

Lemma fmap_bind_list {A B C : Type} (g : B -> C) (f : A -> list B) (l : list A) :
  g <$> (l ≫= f) = l ≫= (fun x => g <$> f x).
Proof.
  induction l as [|x l IH]; [reflexivity|].
  rewrite !bind_cons, fmap_app. now rewrite IH.
Qed.

Lemma length_bind_uniform {A B : Type} (f : A -> list B) (k : nat) (l : list A) :
  (forall x, length (f x) = k) -> length (l ≫= f) = (length l * k)%nat.
Proof.
  intros Hk. induction l as [|x l IH]; [reflexivity|].
  rewrite bind_cons, length_app, Hk, IH. cbn. lia.
Qed.

(** The loop of [spotcheckSegments] appends to [spotchecks] the draws
    the spec describes. *)
Lemma spotcheck_loop_draws (n : nat) (segs spotchecks : list string) :
  spotcheck_loop n segs spotchecks = (app spotchecks) <$> independent_draws n segs.
Proof.
  revert spotchecks; induction n as [|n IH]; intros spotchecks.
  - cbn. now rewrite app_nil_r.
  - cbn [spotcheck_loop independent_draws]. unfold getRandomItem.
    rewrite fmap_bind_list. apply list_bind_ext; [|reflexivity].
    intros x. rewrite IH, <- list_fmap_compose.
    apply list_fmap_ext. intros _ sample _. cbn. now rewrite <- app_assoc.
Qed.

Lemma length_independent_draws (n : nat) (items : list string) :
  length (independent_draws n items) = (length items ^ n)%nat.
Proof.
  induction n as [|n IH]; [reflexivity|].
  cbn [independent_draws].
  rewrite (length_bind_uniform _ (length items ^ n)%nat).
  - cbn. lia.
  - intros x. now rewrite length_fmap.
Qed.

(** The outcomes are the sequences of [n] items, whatever they repeat. *)
Lemma elem_of_independent_draws (n : nat) (items sample : list string) :
  sample ∈ independent_draws n items <->
  length sample = n /\ Forall (fun x => x ∈ items) sample.
Proof.
  revert sample; induction n as [|n IH]; intros sample.
  - cbn. rewrite list_elem_of_singleton. split.
    + intros ->. split; [reflexivity | constructor].
    + intros [Hl _]. now destruct sample.
  - cbn [independent_draws]. rewrite list_elem_of_bind. split.
    + intros (x & Hs & Hx). apply list_elem_of_fmap in Hs as (t & -> & Ht).
      apply IH in Ht as [Hl Hall]. split; [cbn; lia | now constructor].
    + intros [Hl Hall]. destruct sample as [|x t]; [discriminate|].
      inversion Hall as [|? ? Hx Ht]; subst. exists x. split; [|assumption].
      apply list_elem_of_fmap. exists t. split; [reflexivity|].
      apply IH. split; [cbn in Hl; lia | assumption].
Qed.

(** Over distinct items no sequence comes up twice: the outcomes are
    equally likely sequences. *)
Lemma NoDup_independent_draws (n : nat) (items : list string) :
  NoDup items -> NoDup (independent_draws n items).
Proof.
  intros Hnd. induction n as [|n IH].
  - cbn. apply NoDup_singleton.
  - cbn [independent_draws]. apply NoDup_bind; [| |assumption].
    + intros x1 x2 y _ _ H1 H2.
      apply list_elem_of_fmap in H1 as (t1 & -> & _).
      apply list_elem_of_fmap in H2 as (t2 & E & _). congruence.
    + intros x _. apply NoDup_fmap_2; [|assumption].
      intros t1 t2 E. congruence.
Qed.

End Draws.

(** C7: [spotcheckSegments(P, n, d)] runs the pipeline of
    [verifySegments] on a sample of [n] segments drawn from
    [manifest.segments] independently, uniformly and with replacement:
    its outcomes are the reports of the walks over the sequences of
    [independent_draws], which are the sequences of length [n] over the
    segments (one and the same segment [n] times among them),
    [|segments|^n] in number and each of them once when the segments are
    distinct. For [n = 0] the one outcome is the empty report, with no
    request made and the world as it was. *)
Theorem spotcheckSegments_sample {L : Lib} (this : DashValidator)
    (verifyFn : option (Headers -> completion bool)) (noSamples : Z)
    (doDownload : bool) (w : World) :
  let segs := segments (_manifest this) in
  let n := Z.to_nat noSamples in
  spotcheckSegments this verifyFn noSamples doDownload w =
    (fun sample => verifySegments this verifyFn sample doDownload w)
      <$> independent_draws n segs /\
  (forall sample,
      sample ∈ independent_draws n segs <->
      length sample = n /\ Forall (fun x => x ∈ segs) sample) /\
  (forall x, x ∈ segs -> replicate n x ∈ independent_draws n segs) /\
  length (independent_draws n segs) = (length segs ^ n)%nat /\
  (NoDup segs -> NoDup (independent_draws n segs)) /\
  spotcheckSegments this verifyFn 0 doDownload w =
    [({| failed := []; ok := [] |}, w, [])].
Proof.
  intros segs n. repeat apply conj.
  - unfold spotcheckSegments. fold segs n.
    rewrite spotcheck_loop_draws. cbn [app].
    rewrite list_fmap_id.
    induction (independent_draws n segs) as [|s l IH]; [reflexivity|].
    rewrite bind_cons, fmap_cons. now rewrite IH.
  - apply elem_of_independent_draws.
  - intros x Hx. apply elem_of_independent_draws. split.
    + apply length_replicate.
    + apply Forall_replicate. exact Hx.
  - apply length_independent_draws.
  - apply NoDup_independent_draws.
  - reflexivity.
Qed.

Lemma spotcheckSegments_sample_witness :
  NoDup (independent_draws 2 (segments Demo.live)).
Proof.
  refine (proj1 (proj2 (proj2 (proj2 (proj2
            (@spotcheckSegments_sample Demo.lib Demo.validator None 2 false 0))))) _).
  apply (bool_decide_unpack _). vm_compute. exact I.
Defined.

(** ** More on the default predicates *)

(** The three outcomes of [defaultVerifyFn], header by header. *)
Lemma defaultVerifyFn_cases (headers : Headers) :
  defaultVerifyFn headers =
    match headers !! "cache-control" with
    | None => Normal false
    | Some _ =>
        match headers !! "access-control-expose-headers" with
        | None => Throw (cannot_read "split")
        | Some e =>
            if bool_decide ("Date" ∈ split_comma e) then
              match headers !! "access-control-allow-headers" with
              | None => Throw (cannot_read "split")
              | Some a => Normal (bool_decide ("origin" ∈ split_comma a))
              end
            else Normal false
        end
    end.
Proof.
  destruct (headers !! "cache-control") as [cc|] eqn:Ec;
    [|now apply defaultVerifyFn_no_cache_control].
  destruct (headers !! "access-control-expose-headers") as [e|] eqn:Ee.
  2: { apply defaultVerifyFn_no_expose_headers; congruence. }
  destruct (headers !! "access-control-allow-headers") as [a|] eqn:Ea.
  - rewrite (defaultVerifyFn_present headers cc e a) by assumption.
    now destruct (bool_decide ("Date" ∈ split_comma e)).
  - unfold defaultVerifyFn, split_header. rewrite Ec, Ee, Ea.
    rewrite bool_decide_eq_false_2 by discriminate. cbn [orelse bind].
    destruct (indexOf (split_comma e) "Date" =? -1) eqn:Hd.
    + apply indexOf_absent in Hd. now rewrite (bool_decide_eq_false_2 _ Hd).
    + apply indexOf_present in Hd. now rewrite (bool_decide_eq_true_2 _ Hd).
Qed.

(** X2: [defaultVerifyFn] throws exactly when [cache-control] is there
    and either [access-control-expose-headers] is missing, or it lists
    [Date] and [access-control-allow-headers] is missing; what it throws
    is the [TypeError] of the [split] on [undefined]. *)
Theorem defaultVerifyFn_throw_iff (headers : Headers) (err : value) :
  defaultVerifyFn headers = Throw err <->
  err = cannot_read "split" /\
  is_Some (headers !! "cache-control") /\
  (headers !! "access-control-expose-headers" = None \/
   (exists e, headers !! "access-control-expose-headers" = Some e /\
              "Date" ∈ split_comma e) /\
   headers !! "access-control-allow-headers" = None).
Proof.
  rewrite defaultVerifyFn_cases. split.
  - destruct (headers !! "cache-control") as [cc|]; [|discriminate].
    destruct (headers !! "access-control-expose-headers") as [e|].
    + destruct (bool_decide ("Date" ∈ split_comma e)) eqn:Hd; [|discriminate].
      apply bool_decide_eq_true_1 in Hd.
      destruct (headers !! "access-control-allow-headers") as [a|]; [discriminate|].
      intros [= <-]. split; [reflexivity|]. split; [eauto|]. right. eauto.
    + intros [= <-]. split; [reflexivity|]. split; [eauto|]. now left.
  - intros (-> & [cc ->] & [->|[(e & -> & Hd) ->]]); [reflexivity|].
    now rewrite (bool_decide_eq_true_2 _ Hd).
Qed.

(** X3: [defaultVerifyFn] returns [false] exactly when [cache-control]
    is missing, or [access-control-expose-headers] is there without
    [Date], or both are fine and [access-control-allow-headers] is there
    without [origin]. A missing [cache-control] hides what is wrong with
    the other two, and a missing [Date] hides a missing
    [access-control-allow-headers]. *)
Theorem defaultVerifyFn_false_iff (headers : Headers) :
  defaultVerifyFn headers = Normal false <->
  headers !! "cache-control" = None \/
  (is_Some (headers !! "cache-control") /\
   exists e, headers !! "access-control-expose-headers" = Some e /\
     ("Date" ∉ split_comma e \/
      exists a, headers !! "access-control-allow-headers" = Some a /\
                "origin" ∉ split_comma a)).
Proof.
  rewrite defaultVerifyFn_cases. split.
  - destruct (headers !! "cache-control") as [cc|]; [|now left].
    destruct (headers !! "access-control-expose-headers") as [e|]; [|discriminate].
    destruct (bool_decide ("Date" ∈ split_comma e)) eqn:Hd.
    + destruct (headers !! "access-control-allow-headers") as [a|]; [|discriminate].
      intros [= Ho]. apply bool_decide_eq_false_1 in Ho.
      right. split; [eauto|]. exists e. split; [reflexivity|]. right. eauto.
    + apply bool_decide_eq_false_1 in Hd. intros _.
      right. split; [eauto|]. exists e. split; [reflexivity|]. now left.
  - intros [->|([cc ->] & e & -> & [Hd|(a & -> & Ho)])]; [reflexivity| |].
    + now rewrite (bool_decide_eq_false_2 _ Hd).
    + destruct (bool_decide ("Date" ∈ split_comma e)); [|reflexivity].
      now rewrite (bool_decide_eq_false_2 _ Ho).
Qed.

(** X4: the default manifest predicate passes exactly when the type is
    not ["dynamic"], or [cache-control] holds a [max-age=<digits>] whose
    first occurrence has a number of at most [10]. A later directive
    does not count, whatever its number. *)
Theorem defaultManifestVerifyFn_true_iff (headers : Headers) (type : string) :
  defaultManifestVerifyFn headers type = true <->
  type <> "dynamic" \/
  exists cc pre ds post,
    headers !! "cache-control" = Some cc /\
    max_age_at cc pre ds post /\ none_before cc (String.length pre) /\
    to_number ds <= 10.
Proof.
  unfold defaultManifestVerifyFn. destruct (String.eqb_spec type "dynamic") as [->|Hne].
  2: { split; [now left | reflexivity]. }
  split.
  - intros Hok. right.
    destruct (headers !! "cache-control") as [cc|]; [|discriminate].
    destruct (match_max_age cc) as [m1|] eqn:Hm; [|now destruct cc].
    destruct (match_max_age_sound cc m1 Hm) as (pre & post & Hat & Hnb).
    exists cc, pre, m1, post. repeat split; try assumption; try apply Hat.
    destruct cc; [discriminate|].
    destruct (Z.gtb_spec (to_number m1) 10); [discriminate | lia].
  - intros [Hne|(cc & pre & ds & post & -> & Hat & Hnb & Hle)]; [congruence|].
    rewrite (match_max_age_leftmost _ _ _ _ Hat Hnb).
    destruct Hat as (Ecc & _).
    destruct cc; [destruct pre; discriminate|].
    destruct (Z.gtb_spec (to_number ds) 10); [lia | reflexivity].
Qed.

(** ** More on verifyTimestamps, verifyManifest and on *)

Section Checks.

Context {L : Lib}.
Variables (this : DashValidator) (w : World).

(** Every type but ["static"] gets the clock check. *)
Lemma verifyTimestamps_not_static (allowedDiff : option Z) :
  type (_manifest this) <> "static" ->
  let offset := Z.abs (timeAtHead (_manifest this) - getTime w) in
  verifyTimestamps this allowedDiff w =
    {| clock := if offset >? or_default allowedDiff 10000 then "BAD" else "OK";
       clockOffset := Some offset |}.
Proof.
  intros Hne. unfold verifyTimestamps.
  destruct (String.eqb_spec (type (_manifest this)) "static"); [contradiction|].
  cbn. now destruct (_ >? _).
Qed.

End Checks.

(** X5: [verifyTimestamps] leaves [clockOffset] out exactly when the
    type is ["static"]. Every other type gets the clock check: a live
    manifest ([isLive()] true), and also a manifest whose type is neither
    of the two, for which [isLive()] is false. *)
Theorem verifyTimestamps_offset_iff {L : Lib} (this : DashValidator)
    (allowedDiff : option Z) (w : World) :
  (clockOffset (verifyTimestamps this allowedDiff w) = None <->
   type (_manifest this) = "static") /\
  (isLive this = true -> is_Some (clockOffset (verifyTimestamps this allowedDiff w))).
Proof.
  assert (Hiff : clockOffset (verifyTimestamps this allowedDiff w) = None <->
                 type (_manifest this) = "static").
  { destruct (String.eqb_spec (type (_manifest this)) "static") as [E|Hne].
    - rewrite (verifyTimestamps_static this w allowedDiff E). tauto.
    - rewrite (verifyTimestamps_not_static this w allowedDiff Hne). cbn.
      split; [discriminate | contradiction]. }
  split; [exact Hiff|].
  unfold isLive. intros Hlive. apply String.eqb_eq in Hlive.
  assert (Hne : type (_manifest this) <> "static") by (rewrite Hlive; discriminate).
  rewrite (verifyTimestamps_not_static this w allowedDiff Hne). cbn. eauto.
Qed.

Lemma verifyTimestamps_offset_iff_witness :
  is_Some (clockOffset (verifyTimestamps Demo.validator (Some 5000) (21000 : @World Demo.lib))).
Proof.
  refine (proj2 (@verifyTimestamps_offset_iff Demo.lib Demo.validator (Some 5000) 21000) _).
  reflexivity.
Defined.

(** X6: a negative [allowedDiff] is taken as it is, and no offset is
    below it: every manifest that is not static comes out ["BAD"]. *)
Theorem verifyTimestamps_negative_tolerance {L : Lib} (this : DashValidator)
    (a : Z) (w : World) :
  a < 0 -> type (_manifest this) <> "static" ->
  clock (verifyTimestamps this (Some a) w) = "BAD".
Proof.
  intros Ha Hne. rewrite (verifyTimestamps_not_static this w (Some a) Hne). cbn.
  destruct (Z.eqb_spec a 0); [lia|].
  destruct (Z.gtb_spec (Z.abs (timeAtHead (_manifest this) - getTime w)) a); [reflexivity | lia].
Qed.

Lemma verifyTimestamps_negative_tolerance_witness :
  clock (verifyTimestamps Demo.validator (Some (-1)) (1000 : @World Demo.lib)) = "BAD".
Proof.
  apply (@verifyTimestamps_negative_tolerance Demo.lib Demo.validator (-1) 1000).
  - lia.
  - discriminate.
Defined.

(** X7: a larger tolerance never turns ["OK"] into ["BAD"]: what passes
    with [a] passes with every [a' >= a] (both not zero). *)
Theorem verifyTimestamps_tolerance_monotone {L : Lib} (this : DashValidator)
    (a a' : Z) (w : World) :
  a <> 0 -> a' <> 0 -> a <= a' ->
  clock (verifyTimestamps this (Some a) w) = "OK" ->
  clock (verifyTimestamps this (Some a') w) = "OK".
Proof.
  intros Ha Ha' Hle.
  destruct (String.eqb_spec (type (_manifest this)) "static") as [E|Hne].
  - now rewrite !(verifyTimestamps_static this w _ E).
  - rewrite !(verifyTimestamps_not_static this w _ Hne). cbn.
    destruct (Z.eqb_spec a 0); [contradiction|].
    destruct (Z.eqb_spec a' 0); [contradiction|].
    destruct (Z.gtb_spec (Z.abs (timeAtHead (_manifest this) - getTime w)) a);
      [discriminate|].
    destruct (Z.gtb_spec (Z.abs (timeAtHead (_manifest this) - getTime w)) a');
      [lia | reflexivity].
Qed.

Lemma verifyTimestamps_tolerance_monotone_witness :
  clock (verifyTimestamps Demo.validator (Some 6000) (6000 : @World Demo.lib)) = "OK".
Proof.
  apply (@verifyTimestamps_tolerance_monotone Demo.lib Demo.validator 5000 6000 6000).
  - lia.
  - lia.
  - lia.
  - reflexivity.
Defined.

(** [verifyManifest] hands back the headers of the manifest response
    as they are; with no predicate given it passes whenever [isLive()] is
    false, and with one given the default is not consulted. *)
Theorem verifyManifest_result {L : Lib} (this : DashValidator) :
  (forall verifyFn,
      manifest_headers (verifyManifest this verifyFn) = _manifestHeaders this) /\
  (isLive this = false -> manifest_ok (verifyManifest this None) = true) /\
  (forall f,
      manifest_ok (verifyManifest this (Some f)) =
      f (_manifestHeaders this) (type (_manifest this))).
Proof.
  split; [reflexivity|]. split; [|reflexivity].
  unfold isLive. intros Hlive. cbn. unfold defaultManifestVerifyFn. now rewrite Hlive.
Qed.

Lemma verifyManifest_result_witness :
  manifest_ok
    (verifyManifest
       (@Build_DashValidator Demo.lib "http://example.com/vod.mpd" DemoLoader.vod
          "http://example.com/" ∅ []) None) = true.
Proof.
  refine (proj1 (proj2 (@verifyManifest_result Demo.lib
            (@Build_DashValidator Demo.lib "http://example.com/vod.mpd" DemoLoader.vod
               "http://example.com/" ∅ []))) _).
  reflexivity.
Defined.

(** X8: [on] touches nothing but the runner (the source URL, the
    manifest, the base and the manifest headers stay). It raises exactly
    when the name is one of the three and either no runner is there yet
    (before [load()] has resolved: the [TypeError] of a call on
    [undefined]) or the runner's [on] raises; no other name ever raises,
    loaded or not. On a loaded validator it is [on] as modelled above. *)
Theorem obj_on_raises_iff {L : Lib} (this : ValidatorObject)
    (eventName : string) (fn : Callback) :
  (forall this',
      obj_on this eventName fn = Normal this' ->
      obj_src this' = obj_src this /\ obj_manifest this' = obj_manifest this /\
      obj_base this' = obj_base this /\
      obj_manifestHeaders this' = obj_manifestHeaders this) /\
  (forall err,
      obj_on this eventName fn = Throw err <->
      eventName ∈ ["invalidplayhead"; "invalidheaders"; "checking"] /\
      ((obj_runner this = None /\ err = cannot_read "on") \/
       (exists runner, obj_runner this = Some runner /\
                       Runner_on eventName fn runner = Throw err))) /\
  (forall v,
      loaded this = Some v ->
      match on v eventName fn with
      | Normal v' =>
          exists this', obj_on this eventName fn = Normal this' /\ loaded this' = Some v'
      | Throw err => obj_on this eventName fn = Throw err
      end).
Proof.
  unfold obj_on, on.
  destruct (indexOf ["invalidplayhead"; "invalidheaders"; "checking"] eventName =? -1) eqn:Hi.
  - apply indexOf_absent in Hi. cbn. split_and!.
    + intros this' [= <-]. now split_and!.
    + intros err. split; [discriminate | intros [Hin _]; contradiction].
    + intros v Hv. exists this. now split.
  - apply indexOf_present in Hi. cbn. split_and!.
    + intros this'. destruct (obj_runner this) as [runner|]; [|discriminate].
      destruct (Runner_on eventName fn runner); [|discriminate].
      cbn. intros [= <-]. now split_and!.
    + intros err. destruct (obj_runner this) as [runner|].
      * destruct (Runner_on eventName fn runner) as [r|err0] eqn:Er; cbn.
        -- split; [discriminate|].
           intros [_ [[? _]|(runner' & [= <-] & Er')]]; [discriminate|].
           rewrite Er in Er'. discriminate.
        -- split.
           ++ intros [= <-]. split; [exact Hi|]. right. eauto.
           ++ intros [_ [[? _]|(runner' & [= <-] & Er')]]; [discriminate|].
              rewrite Er in Er'. now injection Er' as <-.
      * split.
        -- intros [= <-]. split; [exact Hi|]. now left.
        -- intros [_ [[_ ->]|(runner' & ? & _)]]; [reflexivity | discriminate].
    + intros v Hv. unfold loaded in Hv.
      destruct (obj_manifest this) as [manifest|] eqn:Em; [|discriminate].
      destruct (obj_manifestHeaders this) as [hdrs|] eqn:Eh; [|discriminate].
      destruct (obj_runner this) as [runner|] eqn:Er; [|discriminate].
      injection Hv as <-. cbn.
      destruct (Runner_on eventName fn runner) as [r|err0]; cbn; [|reflexivity].
      eexists. split; [reflexivity|]. unfold loaded. cbn. rewrite ?Em, ?Eh. reflexivity.
Qed.

(** Before [load()] an accepted name raises, and a name that is not
    accepted does not. *)
Lemma obj_on_raises_iff_witness :
  @obj_on Demo.lib (constructor "http://example.com/live.mpd") "checking" 7%nat
    = Throw (cannot_read "on") /\
  @obj_on Demo.lib (constructor "http://example.com/live.mpd") "checkin" 7%nat
    = Normal (constructor "http://example.com/live.mpd").
Proof.
  split; [|reflexivity].
  apply (proj2 (proj1 (proj2 (@obj_on_raises_iff Demo.lib
                                (constructor "http://example.com/live.mpd") "checking" 7%nat))
                  (cannot_read "on"))).
  split; [repeat constructor|]. left. now split.
Defined.

(** ** More on the segment walk *)

Section MoreWalks.

Context {L : Lib}.
Variables (verifyFn : option (Headers -> completion bool)) (base : string) (doDownload : bool).

Local Abbreviation check := (checkSegment verifyFn base doDownload).
Local Abbreviation one := (check_one verifyFn base doDownload).
Local Abbreviation probe := (verifySegment (default defaultVerifyFn verifyFn)).

(** The result object has headers only when nothing was caught. *)
Lemma verifySegment_shape (f : Headers -> completion bool) (url : string) (w : World) :
  let result := (verifySegment f url doDownload w).1 in
  (res_headers result = None \/ res_reason result = VUndefined) /\
  (res_ok result = true -> is_Some (res_headers result)).
Proof.
  unfold verifySegment. destruct (select_reqFn doDownload url w) as [[hdrs|err] w']; cbn.
  - destruct (f hdrs) as [b|err]; cbn; split; eauto; discriminate.
  - split; [now left | discriminate].
Qed.

Lemma walk_append_assoc (a b c : Walk) :
  walk_append (walk_append a b) c = walk_append a (walk_append b c).
Proof. unfold walk_append. cbn. now rewrite <- !app_assoc. Qed.

Lemma check_one_from (segmentUrl : string) (st : Walk) :
  one segmentUrl st = walk_append st (one segmentUrl (start_walk (walk_world st))).
Proof.
  destruct (probe (base +:+ segmentUrl) doDownload (walk_world st)) as [result w'] eqn:E.
  rewrite (check_one_result _ _ _ _ _ _ _ E).
  rewrite (check_one_result _ _ _ segmentUrl (start_walk (walk_world st)) result w') by exact E.
  unfold walk_append. cbn. destruct (res_ok result); cbn; now rewrite ?app_nil_r.
Qed.

(** A walk adds to what is there and looks at nothing of it but the
    world. *)
Lemma checkSegment_from (it : list string) (st : Walk) :
  check it st = walk_append st (check it (start_walk (walk_world st))).
Proof.
  revert st; induction it as [|u it IH]; intros st.
  - destruct st. unfold walk_append. cbn. now rewrite !app_nil_r.
  - rewrite !checkSegment_cons.
    rewrite (IH (one u st)), (IH (one u (start_walk (walk_world st)))).
    rewrite (check_one_from u st), walk_append_assoc. reflexivity.
Qed.

Lemma checkSegment_order (it : list string) (st : Walk) :
  exists oks fls,
    walk_ok (check it st) = walk_ok st ++ oks /\
    walk_failed (check it st) = walk_failed st ++ fls /\
    (ok_uri <$> oks) `sublist_of` it /\ (uri <$> fls) `sublist_of` it.
Proof.
  revert st; induction it as [|u it IH]; intros st.
  - exists [], []. cbn. rewrite !app_nil_r. repeat split; constructor.
  - rewrite checkSegment_cons.
    destruct (IH (one u st)) as (oks & fls & -> & -> & Hoks & Hfls).
    destruct (probe (base +:+ u) doDownload (walk_world st)) as [result w'] eqn:E.
    rewrite (check_one_result _ _ _ _ _ _ _ E). cbn. destruct (res_ok result).
    + exists ({| ok_uri := u |} :: oks), fls. rewrite <- app_assoc. cbn.
      repeat split; [now apply sublist_skip | now apply sublist_cons].
    + exists oks, ({| uri := u; reason := res_reason result;
                      headers := res_headers result |} :: fls).
      rewrite <- app_assoc. cbn.
      repeat split; [now apply sublist_cons | now apply sublist_skip].
Qed.

Lemma checkSegment_reason_or_headers (it : list string) (st : Walk) :
  Forall reason_or_headers (walk_failed st) ->
  Forall reason_or_headers (walk_failed (check it st)).
Proof.
  revert st; induction it as [|u it IH]; intros st Hst; [exact Hst|].
  rewrite checkSegment_cons. apply IH.
  destruct (probe (base +:+ u) doDownload (walk_world st)) as [result w'] eqn:E.
  rewrite (check_one_result _ _ _ _ _ _ _ E). cbn.
  destruct (res_ok result); [exact Hst|].
  apply Forall_app. split; [exact Hst|]. constructor; [|constructor].
  pose proof (verifySegment_shape (default defaultVerifyFn verifyFn)
                (base +:+ u) (walk_world st)) as [Hshape _].
  rewrite E in Hshape. exact Hshape.
Qed.

(** The entry a round leaves in [ok] when the result is ok. *)
Lemma checkSegment_ok_entry (pre post : list string) (u : string) (w : World)
    (result : SegmentResult) (w' : World) :
  let st := check pre (start_walk w) in
  probe (base +:+ u) doDownload (walk_world st) = (result, w') ->
  res_ok result = true ->
  walk_ok (check (pre ++ u :: post) (start_walk w)) !! length (walk_ok st) =
    Some {| ok_uri := u |}.
Proof.
  intros st E Hok.
  rewrite checkSegment_app, checkSegment_cons. fold st.
  rewrite (check_one_result _ _ _ _ _ _ _ E), Hok.
  rewrite checkSegment_from. cbn.
  rewrite <- app_assoc. cbn. now rewrite list_lookup_middle.
Qed.

(** With a sleep that blocks and a clock that no request turns back,
    every round takes 50 ms or more. *)
Lemma checkSegment_duration (it : list string) (st : Walk) :
  sleep_blocks -> clock_monotone ->
  getTime (walk_world st) + 50 * Z.of_nat (length it) <= getTime (walk_world (check it st)).
Proof.
  intros Hsleep Hmono. revert st; induction it as [|u it IH]; intros st.
  - cbn. lia.
  - rewrite checkSegment_cons. specialize (IH (one u st)).
    rewrite check_one_world, verifySegment_world in IH.
    pose proof (Hsleep 50 (select_reqFn doDownload (base +:+ u) (walk_world st)).2) as H1.
    pose proof (Hmono doDownload (base +:+ u) (walk_world st)) as H2.
    cbn [length]. lia.
Qed.

End MoreWalks.

(** X9: a walk over [pre ++ post] is the walk over [pre] followed by the
    walk over [post] in the world the first one leaves: the reports and
    the requests are those of the two walks, one after the other. *)
Theorem verifySegments_app {L : Lib} (this : DashValidator)
    (verifyFn : option (Headers -> completion bool)) (pre post : list string)
    (doDownload : bool) (w : World) :
  let r1 := verifySegments this verifyFn pre doDownload w in
  let r2 := verifySegments this verifyFn post doDownload r1.1.2 in
  verifySegments this verifyFn (pre ++ post) doDownload w =
    ({| failed := failed r1.1.1 ++ failed r2.1.1; ok := ok r1.1.1 ++ ok r2.1.1 |},
     r2.1.2, r1.2 ++ r2.2).
Proof.
  unfold verifySegments, iteratorFromArray. cbn.
  rewrite checkSegment_app, checkSegment_from. reflexivity.
Qed.

(** X10: within [ok] and within [failed] the segments keep the order of
    the input: the URIs of each list are a subsequence of the input. *)
Theorem verifySegments_order {L : Lib} (this : DashValidator)
    (verifyFn : option (Headers -> completion bool)) (segments : list string)
    (doDownload : bool) (w : World) :
  let r := verifySegments this verifyFn segments doDownload w in
  (ok_uri <$> ok r.1.1) `sublist_of` segments /\
  (uri <$> failed r.1.1) `sublist_of` segments.
Proof.
  unfold verifySegments, iteratorFromArray. cbn.
  destruct (checkSegment_order verifyFn (_base this) doDownload segments (start_walk w))
    as (oks & fls & -> & -> & Hoks & Hfls).
  now split.
Qed.

(** X11: no entry of [failed] has both headers and a reason: an entry
    with headers is a refusal by the predicate and its reason is
    [undefined]; an entry with a reason (a rejected request, a throw of
    the predicate) has no headers. *)
Theorem verifySegments_reason_or_headers {L : Lib} (this : DashValidator)
    (verifyFn : option (Headers -> completion bool)) (segments : list string)
    (doDownload : bool) (w : World) :
  Forall reason_or_headers
    (failed (verifySegments this verifyFn segments doDownload w).1.1).
Proof.
  unfold verifySegments, iteratorFromArray. cbn.
  apply checkSegment_reason_or_headers. constructor.
Qed.

(** X12: when the request for [u] resolves and the predicate throws
    [err] on its headers, the walk does not stop: the report holds
    [{uri: u, reason: err}] without headers in [failed], as for a
    rejected request, and all segments are requested and filed. *)
Theorem verifySegments_predicate_throws {L : Lib} (this : DashValidator)
    (verifyFn : option (Headers -> completion bool)) (pre post : list string) (u : string)
    (doDownload : bool) (w : World) (hdrs : Headers) (err : value) (w' : World) :
  let r0 := verifySegments this verifyFn pre doDownload w in
  let r := verifySegments this verifyFn (pre ++ u :: post) doDownload w in
  select_reqFn doDownload (_base this +:+ u) r0.1.2 = (Normal hdrs, w') ->
  default defaultVerifyFn verifyFn hdrs = Throw err ->
  failed r.1.1 !! length (failed r0.1.1) =
    Some {| uri := u; reason := err; headers := None |} /\
  probe_urls r.2 = (fun x => _base this +:+ x) <$> (pre ++ u :: post) /\
  (length (ok r.1.1) + length (failed r.1.1))%nat = length (pre ++ u :: post).
Proof.
  intros r0 r E Hp. split; [|split].
  - apply (verifySegments_entry this verifyFn doDownload w pre post u
             {| res_ok := false; res_reason := err; res_headers := None |} w');
      [|reflexivity].
    unfold verifySegment. fold r0. now rewrite E, Hp.
  - apply verifySegments_probes.
  - apply verifySegments_lengths.
Qed.

(** On the small network the fourth segment has [cache-control] only:
    the default predicate throws and the entry carries its [TypeError]. *)
Lemma verifySegments_predicate_throws_witness :
  let r := verifySegments Demo.validator None ["seg1.m4s"; "seg4.m4s"; "seg2.m4s"] false
             (0 : @World Demo.lib) in
  failed r.1.1 !! 0%nat =
    Some {| uri := "seg4.m4s"; reason := cannot_read "split"; headers := None |} /\
  probe_urls r.2 =
    (fun x => "http://example.com/" +:+ x) <$> ["seg1.m4s"; "seg4.m4s"; "seg2.m4s"] /\
  (length (ok r.1.1) + length (failed r.1.1))%nat = 3%nat.
Proof.
  apply (@verifySegments_predicate_throws Demo.lib Demo.validator None
           ["seg1.m4s"] ["seg2.m4s"] "seg4.m4s" false 0 Demo.cache_only_headers
           (cannot_read "split") 90).
  - reflexivity.
  - reflexivity.
Defined.

(** X13: when the request for [u] resolves and the predicate returns
    [true], the report holds [{uri: u}] in [ok], right after the
    segments that passed before it; the URI is the one of the input, not
    the URL requested. *)
Theorem verifySegments_pass {L : Lib} (this : DashValidator)
    (verifyFn : option (Headers -> completion bool)) (pre post : list string) (u : string)
    (doDownload : bool) (w : World) (hdrs : Headers) (w' : World) :
  let r0 := verifySegments this verifyFn pre doDownload w in
  let r := verifySegments this verifyFn (pre ++ u :: post) doDownload w in
  select_reqFn doDownload (_base this +:+ u) r0.1.2 = (Normal hdrs, w') ->
  default defaultVerifyFn verifyFn hdrs = Normal true ->
  ok r.1.1 !! length (ok r0.1.1) = Some {| ok_uri := u |}.
Proof.
  intros r0 r E Hp.
  apply (checkSegment_ok_entry verifyFn (_base this) doDownload pre post u w
           {| res_ok := true; res_reason := VUndefined; res_headers := Some hdrs |} w');
    [|reflexivity].
  unfold verifySegment.
  change (walk_world (checkSegment verifyFn (_base this) doDownload pre (start_walk w)))
    with r0.1.2.
  now rewrite E, Hp.
Qed.

Lemma verifySegments_pass_witness :
  ok (verifySegments Demo.validator None ["seg2.m4s"; "seg1.m4s"] true
        (0 : @World Demo.lib)).1.1 !! 0%nat = Some {| ok_uri := "seg1.m4s" |}.
Proof.
  apply (@verifySegments_pass Demo.lib Demo.validator None
           ["seg2.m4s"] [] "seg1.m4s" true 0 Demo.good_headers 450).
  - reflexivity.
  - reflexivity.
Defined.

(** X15: the walk sleeps after every segment, the last one too: with a
    sleep that blocks and a clock that no request turns back, a walk
    over [n] segments ends no sooner than [50 * n] ms after it began. *)
Theorem verifySegments_duration {L : Lib} (this : DashValidator)
    (verifyFn : option (Headers -> completion bool)) (segments : list string)
    (doDownload : bool) (w : World) :
  sleep_blocks -> clock_monotone ->
  getTime w + 50 * Z.of_nat (length segments) <=
  getTime (verifySegments this verifyFn segments doDownload w).1.2.
Proof.
  intros Hsleep Hmono.
  exact (checkSegment_duration verifyFn (_base this) doDownload segments (start_walk w)
           Hsleep Hmono).
Qed.

Lemma verifySegments_duration_witness :
  0 + 50 * Z.of_nat (length ["seg1.m4s"; "seg2.m4s"]) <=
  @getTime Demo.lib
    (verifySegments Demo.validator None ["seg1.m4s"; "seg2.m4s"] false (0 : @World Demo.lib)).1.2.
Proof.
  apply (@verifySegments_duration Demo.lib Demo.validator None
           ["seg1.m4s"; "seg2.m4s"] false 0).
  - intros ms w0. cbn. lia.
  - intros d url w0. destruct d; cbn; lia.
Defined.

(** ** More on spotcheckSegments *)

(** X16: a sample count of zero or less draws nothing: the one outcome
    is the empty report, with no request made. *)
Theorem spotcheckSegments_nonpositive {L : Lib} (this : DashValidator)
    (verifyFn : option (Headers -> completion bool)) (noSamples : Z)
    (doDownload : bool) (w : World) :
  noSamples <= 0 ->
  spotcheckSegments this verifyFn noSamples doDownload w =
    [({| failed := []; ok := [] |}, w, [])].
Proof.
  intros Hn. unfold spotcheckSegments.
  replace (Z.to_nat noSamples) with 0%nat by lia. reflexivity.
Qed.

Lemma spotcheckSegments_nonpositive_witness :
  spotcheckSegments Demo.validator None (-3) false (0 : @World Demo.lib) =
    [({| failed := []; ok := [] |}, 0, [])].
Proof.
  apply (@spotcheckSegments_nonpositive Demo.lib Demo.validator None (-3) false 0). lia.
Defined.

(** X17: on a manifest with at least one segment a spotcheck of [n]
    samples has an outcome, and every outcome is the walk over some [n]
    segments of the manifest (a segment may come more than once): it
    files [n] entries, and the world it leaves is the one reached by
    issuing the request for each sample in turn and sleeping after it,
    a segment drawn twice being requested twice. *)
Theorem spotcheckSegments_size {L : Lib} (this : DashValidator)
    (verifyFn : option (Headers -> completion bool)) (noSamples : Z)
    (doDownload : bool) (w : World) :
  segments (_manifest this) <> [] ->
  spotcheckSegments this verifyFn noSamples doDownload w <> [] /\
  Forall (fun outcome : SegmentVerifyResult * World * list event =>
            exists sample,
              length sample = Z.to_nat noSamples /\
              Forall (fun x => x ∈ segments (_manifest this)) sample /\
              outcome = verifySegments this verifyFn sample doDownload w /\
              (length (ok outcome.1.1) + length (failed outcome.1.1))%nat
                = Z.to_nat noSamples /\
              outcome.1.2 =
                fold_left
                  (fun w0 u => sleep 50 (select_reqFn doDownload (_base this +:+ u) w0).2)
                  sample w)
    (spotcheckSegments this verifyFn noSamples doDownload w).
Proof.
  intros Hne.
  assert (E : spotcheckSegments this verifyFn noSamples doDownload w =
              (fun sample => verifySegments this verifyFn sample doDownload w)
                <$> independent_draws (Z.to_nat noSamples) (segments (_manifest this))).
  { unfold spotcheckSegments. rewrite spotcheck_loop_draws. cbn [app].
    rewrite list_fmap_id.
    induction (independent_draws _ _) as [|s l IH]; [reflexivity|].
    rewrite bind_cons, fmap_cons. now rewrite IH. }
  rewrite E. split.
  - intros Hnil. apply (f_equal length) in Hnil.
    rewrite length_fmap, length_independent_draws in Hnil.
    apply (Nat.pow_nonzero (length (segments (_manifest this))) (Z.to_nat noSamples));
      [|exact Hnil].
    destruct (segments (_manifest this)); [contradiction | discriminate].
  - apply Forall_fmap, Forall_forall. intros sample Hs. cbn.
    apply elem_of_independent_draws in Hs as [Hlen Hall].
    exists sample. split_and!; try assumption; try reflexivity.
    + rewrite <- Hlen. apply verifySegments_lengths.
    + apply verifySegments_world.
Qed.

Lemma spotcheckSegments_size_witness :
  spotcheckSegments Demo.validator None 2 false (0 : @World Demo.lib) <> [].
Proof.
  refine (proj1 (@spotcheckSegments_size Demo.lib Demo.validator None 2 false 0 _)).
  discriminate.
Defined.

(** ** load and the refresh of validateDynamicManifest *)

(** X18: when [load] fulfils, the object is a loaded validator: its
    manifest is what the parser made of the downloaded body, its headers
    are those of that response, its runner was built from the two with
    [10], and its base is [getBaseUrl(src) + "/"], so that
    [verifyAllSegments] requests [getBaseUrl(src) + "/" + segment] for
    each segment of the manifest, in order. *)
Theorem load_fulfilled {L : Lib} {LD : Loader} (this this' : ValidatorObject)
    (w w' : World) :
  load this w = (Fulfilled, this', w') ->
  exists v xml w1,
    loaded this' = Some v /\
    _src v = obj_src this /\
    _base v = getBaseUrl (obj_src this) +:+ "/" /\
    requestXml (obj_src this) w = (Normal (xml, _manifestHeaders v), w1) /\
    parse xml w1 = (Normal (_manifest v), w') /\
    _runner v = newRunner (_manifest v) (_manifestHeaders v) 10 /\
    forall verifyFn doDownload w2,
      probe_urls (verifyAllSegments v verifyFn doDownload w2).2 =
      (fun u => (getBaseUrl (obj_src this) +:+ "/") +:+ u) <$> segmentUrls v.
Proof.
  unfold load. cbn.
  destruct (requestXml (obj_src this) w) as [[[xml hdrs]|err] w1] eqn:Er; [|discriminate].
  destruct (parse xml w1) as [[manifest|err] w2] eqn:Ep; [|discriminate].
  intros [= <- <-].
  exists {| _src := obj_src this; _manifest := manifest;
            _base := getBaseUrl (obj_src this) +:+ "/";
            _manifestHeaders := hdrs; _runner := newRunner manifest hdrs 10 |}, xml, w1.
  split; [reflexivity|]. split; [reflexivity|]. split; [reflexivity|].
  split; [reflexivity|]. split; [exact Ep|]. split; [reflexivity|].
  intros verifyFn doDownload w3.
  exact (verifySegments_probes _ verifyFn doDownload w3 manifest.(segments)).
Qed.

Lemma load_fulfilled_witness :
  exists v,
    loaded (@load Demo.lib DemoLoader.loader
              (constructor "http://example.com/vod.mpd") 0).1.2 = Some v /\
    _base v = "http://example.com/" /\ _manifest v = DemoLoader.vod.
Proof.
  destruct (@load_fulfilled Demo.lib DemoLoader.loader
              (constructor "http://example.com/vod.mpd")
              (@load Demo.lib DemoLoader.loader
                 (constructor "http://example.com/vod.mpd") 0).1.2
              0 31 eq_refl) as (v & xml & w1 & Hl & _ & Hb & _).
  exists v. split; [exact Hl|]. split; [exact Hb|].
  injection Hl as <-. reflexivity.
Defined.

(** X19: [load] settles, and when it rejects it has installed neither a
    manifest nor a runner: both are what they were (still [undefined]
    after a first attempt, the earlier ones after a reload), while the
    base is already the new one. A rejected request leaves the headers
    alone and is the reason of the rejection; a rejected parse is the
    reason too, with the headers of the response already in place. *)
Theorem load_rejected {L : Lib} {LD : Loader} (this : ValidatorObject) (w : World) :
  (load this w).1.1 <> Pending /\
  forall err this' w',
    load this w = (Rejected err, this', w') ->
    obj_src this' = obj_src this /\
    obj_manifest this' = obj_manifest this /\
    obj_runner this' = obj_runner this /\
    obj_base this' = getBaseUrl (obj_src this) +:+ "/" /\
    ((requestXml (obj_src this) w = (Throw err, w') /\
      obj_manifestHeaders this' = obj_manifestHeaders this) \/
     (exists xml hdrs w1,
         requestXml (obj_src this) w = (Normal (xml, hdrs), w1) /\
         parse xml w1 = (Throw err, w') /\
         obj_manifestHeaders this' = Some hdrs)).
Proof.
  unfold load. cbn.
  destruct (requestXml (obj_src this) w) as [[[xml hdrs]|err0] w1] eqn:Er.
  - destruct (parse xml w1) as [[manifest|err0] w2] eqn:Ep; cbn.
    + split; [discriminate|]. intros err this' w'. discriminate.
    + split; [discriminate|]. intros err this' w' [= <- <- <-]. cbn.
      repeat split. right. exists xml, hdrs, w1. now repeat split.
  - cbn. split; [discriminate|]. intros err this' w' [= <- <- <-]. cbn.
    repeat split. left. now split.
Qed.

Lemma load_rejected_witness :
  let r := @load Demo.lib DemoLoader.loader
             (constructor "http://example.com/broken.mpd") 0 in
  obj_manifest r.1.2 = None /\ obj_runner r.1.2 = None.
Proof.
  destruct (proj2 (@load_rejected Demo.lib DemoLoader.loader
                     (constructor "http://example.com/broken.mpd") 0)
              (VError "Error" "Unexpected end of input")
              (@load Demo.lib DemoLoader.loader
                 (constructor "http://example.com/broken.mpd") 0).1.2
              31 eq_refl) as (_ & Hm & Hr & _ & _).
  split; [exact Hm | exact Hr].
Defined.

(** X20: the refresh that [validateDynamicManifest] hands to the runner
    never rejects; it fulfils exactly when the download, the parse and
    [updateMpd] all succeed, and otherwise stays unsettled. It replaces
    the manifest and passes the new headers to the runner only: the
    validator's own [_manifestHeaders] (and source and base) stay those
    of [load], so [verifyManifest] after a refresh still answers with
    the headers of the first download. A failed download or parse
    changes nothing in the validator. *)
Theorem refreshMpd_outcome {L : Lib} {LD : Loader} (this : DashValidator) (w : World) :
  let r := refreshMpd this w in
  (forall err, r.1.1 <> Rejected err) /\
  _src r.1.2 = _src this /\ _base r.1.2 = _base this /\
  _manifestHeaders r.1.2 = _manifestHeaders this /\
  (forall verifyFn,
      manifest_headers (verifyManifest r.1.2 verifyFn) = _manifestHeaders this) /\
  (r.1.1 = Fulfilled <->
   exists xml hdrs w1 manifest runner,
     requestXml (_src this) w = (Normal (xml, hdrs), w1) /\
     parse xml w1 = (Normal manifest, r.2) /\
     Runner_updateMpd manifest hdrs (_runner this) = Normal runner /\
     r.1.2 = with_runner (with_manifest this manifest) runner) /\
  ((exists err w1, requestXml (_src this) w = (Throw err, w1)) -> r.1.2 = this) /\
  (forall xml hdrs w1 err w2,
      requestXml (_src this) w = (Normal (xml, hdrs), w1) ->
      parse xml w1 = (Throw err, w2) -> r.1.2 = this).
Proof.
  unfold refreshMpd.
  destruct (requestXml (_src this) w) as [[[xml hdrs]|err0] w1] eqn:Er.
  - destruct (parse xml w1) as [[manifest|err0] w2] eqn:Ep.
    + cbn. destruct (Runner_updateMpd manifest hdrs (_runner this)) as [runner|err0] eqn:Eu;
        cbn; split_and!; try reflexivity; try discriminate.
      * split; [|reflexivity]. intros _.
        exists xml, hdrs, w1, manifest, runner. now split_and!.
      * intros (err & w0 & Hx). discriminate.
      * intros xml' hdrs' w1' err w2' Hx Hp. injection Hx as <- <- <-.
        rewrite Ep in Hp. discriminate.
      * split; [discriminate|].
        intros (xml' & hdrs' & w1' & manifest' & runner' & Hx & Hp & Hu & _).
        injection Hx as <- <- <-. rewrite Ep in Hp. injection Hp as <-.
        rewrite Eu in Hu. discriminate.
      * intros (err & w0 & Hx). discriminate.
      * intros xml' hdrs' w1' err w2' Hx Hp. injection Hx as <- <- <-.
        rewrite Ep in Hp. discriminate.
    + cbn. split_and!; try reflexivity; try discriminate.
      * split; [discriminate|].
        intros (xml' & hdrs' & w1' & manifest' & runner' & Hx & Hp & _).
        injection Hx as <- <- <-. rewrite Ep in Hp. discriminate.
  - cbn. split_and!; try reflexivity; try discriminate.
    split; [discriminate|].
    intros (xml' & hdrs' & w1' & manifest' & runner' & Hx & _). discriminate.
Qed.

Lemma refreshMpd_outcome_witness :
  (@refreshMpd Demo.lib DemoLoader.loader Demo.validator 0).1.1 = Fulfilled.
Proof.
  refine (proj2 (proj1 (proj2 (proj2 (proj2 (proj2 (proj2
            (@refreshMpd_outcome Demo.lib DemoLoader.loader Demo.validator 0))))))) _).
  exists "<MPD live>", DemoLoader.mpd_headers, 30, Demo.live, [("updated", 0%nat)].
  repeat split.
Defined.

(** ** The pace of the walk *)

Section Consecutive.

Context {L : Lib}.
Variables (this : DashValidator) (verifyFn : option (Headers -> completion bool)).
Variables (doDownload : bool) (w : World).

(** Two segments that follow each other in the list: the worlds their
    requests are issued in, and what the log holds of them. *)
Lemma verifySegments_consecutive (pre post : list string) (u u' : string) :
  let issued := (verifySegments this verifyFn pre doDownload w).1.2 in
  let settled := (select_reqFn doDownload (_base this +:+ u) issued).2 in
  let next := (verifySegments this verifyFn (pre ++ [u]) doDownload w).1.2 in
  let whole := verifySegments this verifyFn (pre ++ u :: u' :: post) doDownload w in
  next = sleep 50 settled /\
  whole.1.2 =
    (verifySegments this verifyFn post doDownload
       (sleep 50 (select_reqFn doDownload (_base this +:+ u') next).2)).1.2 /\
  whole.2 !! (2 * length pre)%nat = Some (ProbeStart (_base this +:+ u) (getTime issued)) /\
  whole.2 !! (2 * length pre + 1)%nat = Some (ProbeEnd (_base this +:+ u) (getTime settled)) /\
  whole.2 !! (2 * length pre + 2)%nat = Some (ProbeStart (_base this +:+ u') (getTime next)).
Proof.
  intros issued settled next whole. subst issued settled next whole.
  rewrite !verifySegments_world, !verifySegments_trace, !fold_left_app. cbn [fold_left].
  split; [reflexivity|]. split; [reflexivity|].
  rewrite walk_events_app.
  pose proof (length_walk_events verifyFn (_base this) doDownload pre w) as Hlen.
  rewrite !lookup_app_r by lia. rewrite Hlen.
  replace (2 * length pre - 2 * length pre)%nat with 0%nat by lia.
  replace (2 * length pre + 1 - 2 * length pre)%nat with 1%nat by lia.
  replace (2 * length pre + 2 - 2 * length pre)%nat with 2%nat by lia.
  cbn [walk_events]. rewrite !verifySegment_world. repeat split.
Qed.

End Consecutive.

Section RateLimit.

Context {T : Transport}.

Local Existing Instance clocked_lib.

Lemma clocked_sleep_blocks : sleep_blocks.
Proof. intros ms [t n]. cbn. lia. Qed.

Lemma clocked_clock_monotone : clock_monotone.
Proof.
  intros d url [t n]. unfold select_reqFn.
  destruct d; cbn; unfold clocked_request; cbn.
  - destruct (get_request url t n) as [[response took] n']. cbn. lia.
  - destruct (head_request url t n) as [[response took] n']. cbn. lia.
Qed.

End RateLimit.

(** C8: in a world with a clock, where [util.sleep(ms)] returns [ms]
    milliseconds or more after the call, take any two segments [u], [u']
    that follow each other in the list. The request for [u] is issued in
    the world [issued] and settles in [settled]; the walk then sleeps,
    and the request for [u'] is issued in [next], the world that
    [sleep(50)] leaves when begun in [settled]. So one request is in
    flight at a time, no request settles before it is issued, and at
    least 50 ms lie between the settling of the one and the issue of the
    next; the walk goes on from there over the rest of the list. The log
    holds the two requests with these clock readings, one right after
    the other. *)
Theorem verifySegments_rate_limit {T : Transport}
    (this : @DashValidator (clocked_lib (T := T)))
    (verifyFn : option (Headers -> completion bool)) (pre post : list string) (u u' : string)
    (doDownload : bool) (w : @World (clocked_lib (T := T))) :
  let issued := (verifySegments this verifyFn pre doDownload w).1.2 in
  let settled := (select_reqFn doDownload (_base this +:+ u) issued).2 in
  let next := (verifySegments this verifyFn (pre ++ [u]) doDownload w).1.2 in
  let whole := verifySegments this verifyFn (pre ++ u :: u' :: post) doDownload w in
  next = clocked_sleep 50 settled /\
  whole.1.2 =
    (verifySegments this verifyFn post doDownload
       (clocked_sleep 50 (select_reqFn doDownload (_base this +:+ u') next).2)).1.2 /\
  whole.2 !! (2 * length pre)%nat = Some (ProbeStart (_base this +:+ u) issued.1) /\
  whole.2 !! (2 * length pre + 1)%nat = Some (ProbeEnd (_base this +:+ u) settled.1) /\
  whole.2 !! (2 * length pre + 2)%nat = Some (ProbeStart (_base this +:+ u') next.1) /\
  issued.1 <= settled.1 /\
  settled.1 + 50 <= next.1.
Proof.
  intros issued settled next whole.
  destruct (verifySegments_consecutive this verifyFn doDownload w pre post u u')
    as (Hnext & Hworld & Hs & He & Hs').
  split; [exact Hnext|]. split; [exact Hworld|].
  split; [exact Hs|]. split; [exact He|]. split; [exact Hs'|].
  split.
  - exact (clocked_clock_monotone doDownload (_base this +:+ u) issued).
  - subst next. fold issued settled in Hnext. rewrite Hnext.
    exact (clocked_sleep_blocks 50 settled).
Qed.

(** On the transport with a HEAD of 20 ms and more and sleeps 3 ms over:
    the first request is issued at 0 and settles at 20, the second is
    issued at 73. *)
Example verifySegments_rate_limit_run :
  (verifySegments DemoTransport.validator None ["seg1.m4s"; "seg2.m4s"; "seg3.m4s"] false
     ((0, 0%N) : @World (clocked_lib (T := DemoTransport.transport)))).2 =
  [ProbeStart "http://example.com/seg1.m4s" 0; ProbeEnd "http://example.com/seg1.m4s" 20;
   ProbeStart "http://example.com/seg2.m4s" 73; ProbeEnd "http://example.com/seg2.m4s" 94;
   ProbeStart "http://example.com/seg3.m4s" 147; ProbeEnd "http://example.com/seg3.m4s" 169].
Proof. vm_compute. reflexivity. Qed.
